(** * Log-monitoring agent: the SQLite outbox, batched delivery and the tailer

    A shallow embedding of [agent/agent_with_sql_outbox.py] and
    [agent/minimal_tail_agent.py].

    - Python [str] values are Rocq [string]s: sequences of 8-bit characters.
      The model is exact for ASCII text, where [str.upper] only maps
      [a..z] to [A..Z] and never changes the length of a string.
    - Python [int] values are [Z].
    - The [outbox] table is the list of its rows; SQL statements are
      functions on that list.  A [sqlite3.Connection] in autocommit mode is
      identified with the table it gives access to.
    - [print] is modelled by the list of console lines a call writes.
    - Exceptions are the [Raise] results of the [result] type.
    - The clock and [uuid.uuid4] are inputs of the functions that read them.
    - The retry thread runs the same [flush_outbox] on a connection of its
      own; threads and sleeping are not modelled, a run of the agent is a
      sequence of store operations. *)

From Stdlib Require Import ZArith Ascii String.
From stdpp Require Import base decidable list strings gmap sorting.

Local Open Scope string_scope.
Local Open Scope list_scope.
Local Open Scope Z_scope.

(* stdpp blocks the unfolding of string append; the proofs below compute
   with it. *)
Local Arguments String.append !_ _ / : simpl nomatch.

(** ** Exceptions and results *)

Inductive exn : Type :=
  | IntegrityError          (* sqlite3.IntegrityError *)
  | OverflowError           (* int parameter outside SQLite's 64-bit INTEGER *)
  | BulkWriteError          (* pymongo.errors.BulkWriteError *)
  | OtherError (what : string).  (* any other Exception, e.g. a timeout *)

Global Instance exn_eq_dec : EqDecision exn.
Proof. solve_decision. Defined.

Inductive result (A : Type) : Type :=
  | Return (a : A)
  | Raise (e : exn).
Arguments Return {A} a.
Arguments Raise {A} e.

(** ** Console lines written by [print] *)

Inductive console : Type :=
  | PersistedLine (event_id message : string)
      (* [+] Persisted log to outbox: event_id=.., message=".." *)
  | DuplicateLine (event_id : string)
      (* [!] Duplicate log skipped: event_id=.. *)
  | SentBatchLine (size : nat)
      (* [v] Sent log batch of size <size> to MongoDB *)
  | SentEventLine (event_id message : string)
      (*     +- event_id=.., message=".." *)
  | FailedLine (count : nat)
      (* [x] <count> events failed to be confirmed; will retry later *)
  | SendErrorLine (e : exn).
      (* [x] Unexpected send error: .. *)

(** ** Data *)

(** The dict built by [parse_log_line]. *)
Record log_entry : Type := mk_entry {
  entry_event_id : string;
  entry_timestamp : string;
  entry_message : string;
  entry_severity : string
}.

(** One row of the table created by [init_sqlite]:
    [id INTEGER PRIMARY KEY AUTOINCREMENT, event_id TEXT UNIQUE,
     timestamp TEXT, message TEXT, severity TEXT, sent INTEGER DEFAULT 0]. *)
Record outbox_row : Type := mk_row {
  row_id : Z;
  row_event_id : string;
  row_timestamp : string;
  row_message : string;
  row_severity : string;
  row_sent : Z
}.

Global Instance outbox_row_eq_dec : EqDecision outbox_row.
Proof. solve_decision. Defined.

(** The tuple [(event_id, timestamp, message, severity)] that
    [fetch_unsent] selects. *)
Definition unsent_tuple : Type := string * string * string * string.

Definition select_columns (r : outbox_row) : unsent_tuple :=
  (row_event_id r, row_timestamp r, row_message r, row_severity r).

(** The document sent to MongoDB by [flush_outbox]. *)
Record mongo_doc : Type := mk_doc {
  doc_event_id : string;
  doc_timestamp : string;
  doc_message : string;
  doc_severity : string;
  doc_captured_at : string
}.

(** ** SQLite helpers *)

(** AUTOINCREMENT: one more than the largest rowid of the table.  Rows are
    never deleted by the agent, so this is also the largest rowid ever used. *)
Definition next_rowid (conn : list outbox_row) : Z :=
  1 + foldr Z.max 0 (row_id <$> conn).

(** [INSERT INTO outbox (event_id, timestamp, message, severity, sent)
     VALUES (?, ?, ?, ?, 0)]: the UNIQUE constraint on [event_id] rejects
    the statement with [IntegrityError] and leaves the table as it was. *)
Definition sql_insert (conn : list outbox_row) (e : log_entry)
  : result (list outbox_row) :=
  if decide (entry_event_id e ∈ row_event_id <$> conn) then Raise IntegrityError
  else Return (conn ++ [mk_row (next_rowid conn) (entry_event_id e)
                               (entry_timestamp e) (entry_message e)
                               (entry_severity e) 0]).

Definition persist_log (conn : list outbox_row) (log_entry : log_entry)
  : result (list outbox_row * list console) :=
  match sql_insert conn log_entry with
  | Return conn' =>
      Return (conn', [PersistedLine (entry_event_id log_entry)
                                    (entry_message log_entry)])
  | Raise IntegrityError =>
      Return (conn, [DuplicateLine (entry_event_id log_entry)])
  | Raise e => Raise e
  end.

(** [WHERE sent = 0] *)
Definition unsent (r : outbox_row) : Prop := row_sent r = 0.

Global Instance unsent_dec r : Decision (unsent r).
Proof. unfold unsent. apply _. Defined.

(** [ORDER BY id ASC] *)
Definition id_le (r1 r2 : outbox_row) : Prop := row_id r1 ≤ row_id r2.

Global Instance id_le_dec r1 r2 : Decision (id_le r1 r2).
Proof. unfold id_le. apply _. Defined.

(** [LIMIT ?]: a negative limit means no limit in SQLite. *)
Definition sql_limit {A : Type} (limit : Z) (l : list A) : list A :=
  if decide (limit < 0) then l else take (Z.to_nat limit) l.

(** The rows selected by
    [SELECT .. FROM outbox WHERE sent = 0 ORDER BY id ASC LIMIT ?]. *)
Definition select_unsent (conn : list outbox_row) (limit : Z)
  : list outbox_row :=
  sql_limit limit (merge_sort id_le (filter unsent conn)).

(** The sqlite3 module binds a Python [int] as a 64-bit INTEGER and raises
    [OverflowError] for a value that does not fit. *)
Definition fits_sqlite_integer (n : Z) : Prop := - 2 ^ 63 ≤ n < 2 ^ 63.

Global Instance fits_sqlite_integer_dec n : Decision (fits_sqlite_integer n).
Proof. unfold fits_sqlite_integer. apply _. Defined.

Definition fetch_unsent (conn : list outbox_row) (limit : Z)
  : result (list unsent_tuple) :=
  if decide (fits_sqlite_integer limit)
  then Return (select_columns <$> select_unsent conn limit)
  else Raise OverflowError.

Definition set_sent (r : outbox_row) : outbox_row :=
  mk_row (row_id r) (row_event_id r) (row_timestamp r) (row_message r)
         (row_severity r) 1.

(** [UPDATE outbox SET sent = 1 WHERE event_id IN (..)], skipped when the
    list of ids is empty.  (SQLite's bound on the number of parameters of a
    statement is not modelled.) *)
Definition mark_sent (conn : list outbox_row) (event_ids : list string)
  : list outbox_row :=
  if decide (event_ids = []) then conn
  else (λ r, if decide (row_event_id r ∈ event_ids) then set_sent r else r)
         <$> conn.

(** ** MongoDB helpers *)

(** What the agent uses of a pymongo collection.  [insert_many] is the call
    [coll.insert_many(docs, ordered=False)]: it returns the collection after
    the call and the exception it raised, if any (a [BulkWriteError] may
    leave part of the batch inserted).  [find_event_ids] is the query
    [coll.find({"event_id": {"$in": event_ids}}, {"event_id": 1})] read to
    its end: the [event_id]s of the documents found, or the exception
    raised while querying. *)
Class Collection (C : Type) : Type := {
  insert_many : C → list mongo_doc → C * option exn;
  find_event_ids : C → list string → result (list string)
}.

Section Delivery.
Context {C : Type} `{Collection C}.

Definition send_batch_to_mongo (coll : C) (docs : list mongo_doc)
  : C * result (list string * list string) :=
  if decide (docs = []) then (coll, Return ([], []))
  else
    match insert_many coll docs with
    | (coll', None) => (coll', Return (doc_event_id <$> docs, []))
    | (coll', Some BulkWriteError) =>
        let event_ids := doc_event_id <$> docs in
        match find_event_ids coll' event_ids with
        | Return found_cursor =>
            let found : gset string := list_to_set found_cursor in
            let succeeded := filter (λ eid, eid ∈ found) event_ids in
            let failed := filter (λ eid, eid ∉ found) event_ids in
            (coll', Return (succeeded, failed))
        | Raise e => (coll', Raise e)
        end
    | (coll', Some e) => (coll', Raise e)
    end.

(** The state a call of [flush_outbox] leaves behind, what it printed and
    how it ended. *)
Record flushed : Type := mk_flushed {
  fl_conn : list outbox_row;
  fl_coll : C;
  fl_console : list console;
  fl_result : result unit
}.

(** [now_iso] is read once per row; [now_iso i] is the reading taken for
    the row at index [i] of the batch. *)
Definition build_docs (now_iso : nat → string) (rows : list unsent_tuple)
  : list mongo_doc :=
  imap (λ i '(event_id, timestamp, message, severity),
          mk_doc event_id timestamp message severity (now_iso i)) rows.

(** [next(.., default)] over the messages of the documents of [docs] whose
    [event_id] is [eid], with the empty string as default. *)
Definition message_of (docs : list mongo_doc) (eid : string) : string :=
  default "" (doc_message <$> head (filter (λ d, doc_event_id d = eid) docs)).

Definition flush_outbox (BATCH_SIZE : Z) (now_iso : nat → string)
    (conn : list outbox_row) (mongo_coll : C) : flushed :=
  match fetch_unsent conn BATCH_SIZE with
  | Raise e => mk_flushed conn mongo_coll [] (Raise e)
  | Return rows =>
      if decide (rows = []) then mk_flushed conn mongo_coll [] (Return ())
      else
        let docs := build_docs now_iso rows in
        match send_batch_to_mongo mongo_coll docs with
        | (coll', Return (succeeded, failed)) =>
            let conn' :=
              if decide (succeeded = []) then conn
              else mark_sent conn succeeded in
            let out_sent :=
              if decide (succeeded = []) then []
              else SentBatchLine (length succeeded)
                   :: ((λ eid, SentEventLine eid (message_of docs eid))
                         <$> succeeded) in
            let out_failed :=
              if decide (failed = []) then []
              else [FailedLine (length failed)] in
            mk_flushed conn' coll' (out_sent ++ out_failed) (Return ())
        | (coll', Raise e) =>
            mk_flushed conn coll' [SendErrorLine e] (Raise e)
        end
  end.
End Delivery.

Arguments flushed C : clear implicits.

(** *** A collection held in memory

    The documents of a MongoDB collection with the unique index on
    [event_id] that [init_mongo] creates, behind a connection that is
    either up or down.  [mc_rejects] tells which documents the server
    refuses for a reason of its own (document validation, size limit). *)
Record mem_coll : Type := mk_mem_coll {
  mc_docs : list mongo_doc;
  mc_online : bool;
  mc_rejects : mongo_doc → bool
}.

(** An unordered bulk insert tries every document: one that the server
    refuses or whose [event_id] is already stored is rejected, every other
    one is stored.  The second component tells whether some document was
    rejected. *)
Fixpoint insert_unordered (rejects : mongo_doc → bool)
    (stored docs : list mongo_doc) : list mongo_doc * bool :=
  match docs with
  | [] => (stored, false)
  | d :: docs' =>
      if rejects d || bool_decide (doc_event_id d ∈ doc_event_id <$> stored)
      then (fst (insert_unordered rejects stored docs'), true)
      else insert_unordered rejects (stored ++ [d]) docs'
  end.

Definition server_selection_timeout : exn :=
  OtherError "ServerSelectionTimeoutError".

Global Instance mem_collection : Collection mem_coll := {
  insert_many coll docs :=
    if mc_online coll then
      let '(stored, rejected) :=
        insert_unordered (mc_rejects coll) (mc_docs coll) docs in
      (mk_mem_coll stored true (mc_rejects coll),
       if rejected then Some BulkWriteError else None)
    else (coll, Some server_selection_timeout);
  find_event_ids coll event_ids :=
    if mc_online coll then
      Return (filter (λ eid, eid ∈ event_ids) (doc_event_id <$> mc_docs coll))
    else Raise server_selection_timeout
}.

(** A server that refuses nothing. *)
Definition accept_all (d : mongo_doc) : bool := false.

(** ** Strings *)

(** The newline character. *)
Definition nl : ascii := ascii_of_N 10.

(** [str.rstrip("\n")]: every trailing newline is removed. *)
Fixpoint rstrip_nl (s : string) : string :=
  match s with
  | EmptyString => EmptyString
  | String c s' =>
      match rstrip_nl s' with
      | EmptyString =>
          if decide (c = nl) then EmptyString else String c EmptyString
      | t => String c t
      end
  end.

Definition upper_char (c : ascii) : ascii :=
  let n := N_of_ascii c in
  if decide (97 ≤ n ≤ 122)%N then ascii_of_N (n - 32) else c.

(** [str.upper()] *)
Fixpoint upper (s : string) : string :=
  match s with
  | EmptyString => EmptyString
  | String c s' => String (upper_char c) (upper s')
  end.

(** [needle in hay] on strings: [needle] occurs at some position of [hay]. *)
Fixpoint str_in (needle hay : string) : bool :=
  String.prefix needle hay
  || match hay with
     | EmptyString => false
     | String _ hay' => str_in needle hay'
     end.

(** [s[:n]] for [n >= 0] *)
Definition str_take (n : nat) (s : string) : string := substring 0 n s.

(** [s[n:]] for [n >= 0] *)
Fixpoint str_drop (n : nat) (s : string) : string :=
  match n, s with
  | O, _ => s
  | S n', String _ s' => str_drop n' s'
  | S _, EmptyString => EmptyString
  end.

(** ** Log parsing *)

Definition levels : list string :=
  ["CRITICAL"; "FATAL"; "ERROR"; "WARNING"; "WARN"].

(** The loop [for level in levels: if level in up: severity = level; break],
    started with the current value of [severity]. *)
Fixpoint scan_levels (levels : list string) (up severity : string) : string :=
  match levels with
  | [] => severity
  | level :: levels' =>
      if str_in level up then level else scan_levels levels' up severity
  end.

(** [uuid4] is the value of [str(uuid.uuid4())] and [now] that of
    [now_iso()] at the call. *)
Definition parse_log_line (uuid4 now : string) (line : string)
  : option log_entry :=
  let line := rstrip_nl line in
  if decide (line = "") then None
  else
    let severity := "INFO" in
    let up := upper line in
    let severity := scan_levels levels up severity in
    Some (mk_entry uuid4 now line severity).

(** ** Following the log file *)

(** A text file open for reading: the text it holds (after the newline
    translation of text mode) and the position of the next read. *)
Record fileobj : Type := mk_file {
  f_data : string;
  f_pos : nat
}.

(** The first line of [s] and what follows it: the characters up to and
    including the first newline, or all of [s] when it has no newline. *)
Fixpoint split_line (s : string) : string * string :=
  match s with
  | EmptyString => (EmptyString, EmptyString)
  | String c s' =>
      if decide (c = nl) then (String c EmptyString, s')
      else let '(line, rest) := split_line s' in (String c line, rest)
  end.

(** [fileobj.readline()] *)
Definition readline (f : fileobj) : string * fileobj :=
  let line := fst (split_line (str_drop (f_pos f) (f_data f))) in
  (line, mk_file (f_data f) (f_pos f + String.length line)%nat).

(** [fileobj.seek(0, os.SEEK_END)] *)
Definition seek_end (f : fileobj) : fileobj :=
  mk_file (f_data f) (String.length (f_data f)).

(** The writer of the log appends [text] to the file. *)
Definition appended (text : string) (f : fileobj) : fileobj :=
  mk_file (f_data f ++ text)%string (f_pos f).

(** One turn of the loop of [follow]: [Some line] when the generator
    yields [line], [None] when it sleeps and tries again. *)
Definition follow_next (f : fileobj) : option string * fileobj :=
  let '(line, f') := readline f in
  if decide (line = "") then (None, f') else (Some line, f').

(** The body of the [for line in follow(f)] loop of [monitor_logs]: the
    line is parsed, persisted and a flush is tried, whose exception is
    dropped. *)
Definition monitor_line {C : Type} `{Collection C} (BATCH_SIZE : Z)
    (now_iso : nat → string) (uuid4 now : string) (line : string)
    (conn : list outbox_row) (mongo_coll : C)
  : result (list outbox_row * C * list console) :=
  match parse_log_line uuid4 now line with
  | None => Return (conn, mongo_coll, [])
  | Some entry =>
      match persist_log conn entry with
      | Raise e => Raise e
      | Return (conn', out) =>
          let fl := flush_outbox BATCH_SIZE now_iso conn' mongo_coll in
          Return (fl_conn fl, fl_coll fl, out ++ fl_console fl)
      end
  end.

(** ** The minimal tail agent *)

(** One row of the table created by [init_db]:
    [id INTEGER PRIMARY KEY AUTOINCREMENT, timestamp TEXT, filename TEXT,
     line TEXT, sent INTEGER DEFAULT 0]. *)
Record match_row : Type := mk_match {
  m_id : Z;
  m_timestamp : string;
  m_filename : string;
  m_line : string;
  m_sent : Z
}.

Inductive tail_console : Type :=
  | OpenedLine (inode : Z) (pos : nat)      (* DEBUG: Opened <path> .. *)
  | MatchLine (ts line : string)            (* [MATCH <ts>] <line> *)
  | PersistedMatchLine (ts : string) (rowid : Z).  (* [PERSISTED <ts>] id=.. *)

(** [utcnow] is the value of [datetime.utcnow().isoformat()] at the call. *)
Definition persist_match (utcnow : string) (filename line : string)
    (db : list match_row) : list match_row * list tail_console :=
  let ts := (utcnow ++ "Z")%string in
  let snippet := str_take 4000 line in
  let lastrowid := 1 + foldr Z.max 0 (m_id <$> db) in
  (db ++ [mk_match lastrowid ts filename snippet 0],
   [PersistedMatchLine ts lastrowid]).

Section Tail.
(** [pat_search line] tells whether [pat.search(line)] finds a match;
    [utcnow n] is the clock reading taken after [n] console lines. *)
Variable pat_search : string → bool.
Variable utcnow : nat → string.

(** The inner [while True] loop of [tail_file]: lines are read until
    [readline] returns the empty string; the result is the position
    [f.tell()] kept for the next pass.  [fuel] bounds the number of turns. *)
Fixpoint read_loop (fuel : nat) (path : string) (f : fileobj)
    (db : list match_row) (out : list tail_console)
  : option (nat * list match_row * list tail_console) :=
  match fuel with
  | O => None
  | S fuel' =>
      let '(line, f') := readline f in
      if decide (line = "") then Some (f_pos f', db, out)
      else
        let line := rstrip_nl line in
        if pat_search line then
          let ts := (utcnow (length out) ++ "Z")%string in
          let out := out ++ [MatchLine ts line] in
          let '(db', printed) :=
            persist_match (utcnow (length out)) path line db in
          read_loop fuel' path f' db' (out ++ printed)
        else read_loop fuel' path f' db out
  end.

(** One pass of the outer loop of [tail_file].  [disk] is the file found
    at [path], as its inode and its text, or [None] when there is none;
    [pos] and [inode] are the variables of the same names. *)
Definition tail_pass (start_at_end : bool) (path : string)
    (disk : option (Z * string)) (pos : nat) (inode : option Z)
    (db : list match_row)
  : option (nat * option Z * list match_row * list tail_console) :=
  match disk with
  | None => Some (pos, inode, db, [])
  | Some (st_ino, data) =>
      let '(f, inode', out) :=
        if decide (inode = Some st_ino) then (mk_file data pos, inode, [])
        else
          let f := mk_file data 0 in
          let f := if start_at_end then seek_end f else f in
          (f, Some st_ino, [OpenedLine st_ino (f_pos f)]) in
      match read_loop (S (String.length data)) path f db out with
      | Some (pos', db', out') => Some (pos', inode', db', out')
      | None => None
      end
  end.
End Tail.

(** ** Store states and store operations *)

(** The UNIQUE constraint on [event_id]. *)
Definition unique_event_ids (conn : list outbox_row) : Prop :=
  NoDup (row_event_id <$> conn).

(** The PRIMARY KEY constraint on [id]. *)
Definition unique_ids (conn : list outbox_row) : Prop :=
  NoDup (row_id <$> conn).

(** [sent] is set: the record is not selected by [WHERE sent = 0]. *)
Definition is_sent (r : outbox_row) : Prop := row_sent r ≠ 0.

(** [r'] is the record [r], up to its [sent] flag. *)
Definition same_record (r r' : outbox_row) : Prop :=
  row_id r' = row_id r ∧ row_event_id r' = row_event_id r ∧
  row_timestamp r' = row_timestamp r ∧ row_message r' = row_message r ∧
  row_severity r' = row_severity r.

(** Every record of [conn] is still in [conn'], and is still sent there
    when it was sent in [conn]. *)
Definition sent_never_reverts (conn conn' : list outbox_row) : Prop :=
  ∀ (i : nat) (r : outbox_row), conn !! i = Some r →
    ∃ r', conn' !! i = Some r' ∧ same_record r r' ∧ (is_sent r → is_sent r').

(** The number of records of [conn] that carry [event_id]. *)
Definition count_event_id (event_id : string) (conn : list outbox_row) : nat :=
  length (filter (λ r, row_event_id r = event_id) conn).

Section Store.
Context {C : Type} `{Collection C}.

Inductive store_op : Type :=
  | OpPersistLog (log_entry : log_entry)
  | OpFetchUnsent (limit : Z)
  | OpMarkSent (event_ids : list string)
  | OpFlushOutbox (BATCH_SIZE : Z) (now_iso : nat → string) (mongo_coll : C).

(** The table after a store operation. *)
Definition run_op (op : store_op) (conn : list outbox_row)
  : list outbox_row :=
  match op with
  | OpPersistLog e =>
      match persist_log conn e with
      | Return (conn', _) => conn'
      | Raise _ => conn
      end
  | OpFetchUnsent limit => conn
  | OpMarkSent event_ids => mark_sent conn event_ids
  | OpFlushOutbox b now_iso coll => fl_conn (flush_outbox b now_iso conn coll)
  end.

(** The tables the agent can build from the empty one. *)
Inductive reachable : list outbox_row → Prop :=
  | reachable_empty : reachable []
  | reachable_step conn op : reachable conn → reachable (run_op op conn).
End Store.

Arguments store_op C : clear implicits.

(** ** The classifier as the specification words it *)









(** [s] ends with a newline. *)
Definition newline_terminated (s : string) : Prop :=
  ∃ body, s = (body ++ String nl EmptyString)%string.

(** [s] holds no newline. *)
Fixpoint no_newline (s : string) : Prop :=
  match s with
  | EmptyString => True
  | String c s' => c ≠ nl ∧ no_newline s'
  end.

(** ** Sample data *)

(** Three records, the second one sent, stored out of id order. *)
Definition three_rows : list outbox_row :=
  [mk_row 3 "e-3" "t3" "disk ERROR" "ERROR" 0;
   mk_row 2 "e-2" "t2" "started" "INFO" 1;
   mk_row 1 "e-1" "t1" "boot" "INFO" 0].

(** A server whose validation refuses documents of severity ERROR. *)
Definition refuse_errors (d : mongo_doc) : bool :=
  bool_decide (doc_severity d = "ERROR").

(** A reading of the clock. *)
Definition noon (i : nat) : string := "2024-01-01T12:00:00".

(** The remote store accepts every insert of the unsent records of [conn]:
    it can be reached, refuses no document and holds none of their
    [event_id]s. *)
Definition accepts_outbox (coll : mem_coll) (conn : list outbox_row) : Prop :=
  mc_online coll = true ∧ (∀ d, mc_rejects coll d = false) ∧
  ∀ r, r ∈ conn → unsent r → row_event_id r ∉ doc_event_id <$> mc_docs coll.

(** Twelve lines are read while the remote store cannot be reached: each
    is persisted by [monitor_line], whose flush fails and is dropped. *)
Definition twelve_event_ids : list string :=
  ["e-01"; "e-02"; "e-03"; "e-04"; "e-05"; "e-06";
   "e-07"; "e-08"; "e-09"; "e-10"; "e-11"; "e-12"].

Definition unreachable_store : mem_coll := mk_mem_coll [] false accept_all.

Definition empty_store : mem_coll := mk_mem_coll [] true accept_all.

Definition twelve_rows : list outbox_row :=
  foldl (λ conn uuid4,
           match monitor_line 5 noon uuid4 "t0" "service tick" conn
                   unreachable_store with
           | Return (conn', _, _) => conn'
           | Raise _ => conn
           end)
        [] twelve_event_ids.

(** The pattern [ERROR] compiled with [re.IGNORECASE]. *)
Definition error_pattern (line : string) : bool := str_in "ERROR" (upper line).

(** ** The retry thread *)

Inductive retry_console : Type :=
  | RetryingLine                  (* Retrying unsent logs... *)
  | FlushLine (line : console)    (* a line printed by [flush_outbox] *)
  | RetryErrorLine (e : exn).     (* [x] Retry loop error: .. *)

Definition value_error : exn := OtherError "ValueError".

Definition sleep_overflow_error : exn := OtherError "OverflowError".

(** [time.sleep(secs)] for an [int]: it returns after [secs] seconds; a
    negative length is refused with [ValueError], and one that does not
    fit 64-bit nanoseconds with [OverflowError]. *)
Definition time_sleep (secs : Z) : result Z :=
  if decide (secs < 0) then Raise value_error
  else if decide (9223372036 < secs) then Raise sleep_overflow_error
  else Return secs.

Section Retry.
Context {C : Type} `{Collection C}.

(** The connection and the collection of the retry thread, what the thread
    has printed and the seconds it has slept. *)
Record retrying : Type := mk_retrying {
  rt_conn : list outbox_row;
  rt_coll : C;
  rt_console : list retry_console;
  rt_slept : Z
}.

(** One turn of the [while True] loop of [retry_loop]: the [try] block
    sleeps [interval], prints and flushes; an exception of any of them is
    caught, printed and followed by a sleep of 5 seconds. *)
Definition retry_turn (BATCH_SIZE : Z) (now_iso : nat → string)
    (interval : Z) (w : retrying) : retrying :=
  match time_sleep interval with
  | Raise e =>
      mk_retrying (rt_conn w) (rt_coll w)
        (rt_console w ++ [RetryErrorLine e]) (rt_slept w + 5)
  | Return secs =>
      let fl := flush_outbox BATCH_SIZE now_iso (rt_conn w) (rt_coll w) in
      let out :=
        rt_console w ++ [RetryingLine] ++ (FlushLine <$> fl_console fl) in
      match fl_result fl with
      | Return _ =>
          mk_retrying (fl_conn fl) (fl_coll fl) out (rt_slept w + secs)
      | Raise e =>
          mk_retrying (fl_conn fl) (fl_coll fl) (out ++ [RetryErrorLine e])
            (rt_slept w + secs + 5)
      end
  end.

(** The first [turns] turns of the loop; [now_iso k] is the clock of turn
    [k], and [k] the number of the next turn. *)
Fixpoint retry_loop (BATCH_SIZE : Z) (now_iso : nat → nat → string)
    (interval : Z) (turns k : nat) (w : retrying) : retrying :=
  match turns with
  | O => w
  | S turns' =>
      retry_loop BATCH_SIZE now_iso interval turns' (S k)
        (retry_turn BATCH_SIZE (now_iso k) interval w)
  end.
End Retry.

Arguments retrying C : clear implicits.

(** ** The generator [follow] over several turns *)



(** The text of [f] that has not been read. *)
Definition unread (f : fileobj) : string := str_drop (f_pos f) (f_data f).

(** [n] newlines. *)
Fixpoint newlines (n : nat) : string :=
  match n with
  | O => EmptyString
  | S n' => String nl (newlines n')
  end.


(** The lines of a text, without their newlines: a line ends at a newline
    or at the end of the text, and a text that ends with a newline has no
    empty line after it.  [cur] is the part of the current line that has
    been passed. *)
Fixpoint lines_from (cur s : string) : list string :=
  match s with
  | EmptyString => if decide (cur = "") then [] else [cur]
  | String c s' =>
      if decide (c = nl) then cur :: lines_from "" s'
      else lines_from (cur +:+ String c "") s'
  end.

Definition lines_of (text : string) : list string := lines_from "" text.

(** The lines of [text] in which the pattern is found, in their order. *)
Definition matching_lines (pat_search : string → bool) (text : string)
  : list string :=
  filter (λ line, pat_search line = true) (lines_of text).

(** A log of two lines, the second one matching [error_pattern]. *)
Definition two_lines : string :=
  "boot" +:+ String nl ("disk ERROR: full" +:+ String nl "").

(** * Properties *)

(** ** Appending to the outbox *)

Lemma count_event_id_absent conn eid :
  eid ∉ row_event_id <$> conn → count_event_id eid conn = 0%nat.
Proof.
  unfold count_event_id. induction conn as [|r conn IH]; [done|].
  rewrite fmap_cons, not_elem_of_cons. intros [Hne Hnot].
  rewrite filter_cons_False by congruence. auto.
Qed.

Lemma count_event_id_unique conn eid :
  unique_event_ids conn → eid ∈ row_event_id <$> conn →
  count_event_id eid conn = 1%nat.
Proof.
  unfold unique_event_ids, count_event_id.
  induction conn as [|r conn IH]; simpl.
  - intros _ Hin. by apply elem_of_nil in Hin.
  - rewrite NoDup_cons. intros [Hfresh Hnodup] Hin.
    destruct (decide (row_event_id r = eid)) as [<-|Hne].
    + rewrite filter_cons_True by done. simpl.
      f_equal. by apply count_event_id_absent.
    + rewrite filter_cons_False by done.
      apply IH; [done|]. apply elem_of_cons in Hin as [?|?]; [congruence|done].
Qed.

Lemma count_event_id_app eid conn1 conn2 :
  count_event_id eid (conn1 ++ conn2)
  = (count_event_id eid conn1 + count_event_id eid conn2)%nat.
Proof. unfold count_event_id. by rewrite filter_app, length_app. Qed.

Lemma persist_log_duplicate conn e :
  entry_event_id e ∈ row_event_id <$> conn →
  persist_log conn e = Return (conn, [DuplicateLine (entry_event_id e)]).
Proof.
  intros Hin. unfold persist_log, sql_insert. by rewrite decide_True.
Qed.

Lemma persist_log_fresh conn e :
  entry_event_id e ∉ row_event_id <$> conn →
  persist_log conn e
  = Return (conn ++ [mk_row (next_rowid conn) (entry_event_id e)
                        (entry_timestamp e) (entry_message e)
                        (entry_severity e) 0],
            [PersistedLine (entry_event_id e) (entry_message e)]).
Proof.
  intros Hin. unfold persist_log, sql_insert. by rewrite decide_False.
Qed.

Lemma unique_event_ids_snoc conn r :
  unique_event_ids conn → row_event_id r ∉ row_event_id <$> conn →
  unique_event_ids (conn ++ [r]).
Proof.
  unfold unique_event_ids. intros Hnd Hnot.
  rewrite fmap_app. apply NoDup_app. split; [done|]. split.
  - intros x Hx Hx'. apply list_elem_of_singleton in Hx'. by subst.
  - apply NoDup_singleton.
Qed.

(** C2: on a table whose [event_id]s are unique, appending an event whose
    [event_id] is already present returns normally, reports the duplicate,
    leaves the table as it was, with exactly one record of that [event_id];
    appending an event whose [event_id] is absent adds exactly one record,
    with the event's columns and [sent = 0]. *)
Theorem persist_log_append conn e :
  unique_event_ids conn →
  (entry_event_id e ∈ row_event_id <$> conn →
     persist_log conn e = Return (conn, [DuplicateLine (entry_event_id e)]) ∧
     count_event_id (entry_event_id e) conn = 1%nat) ∧
  (entry_event_id e ∉ row_event_id <$> conn →
     ∃ r, persist_log conn e
          = Return (conn ++ [r],
                    [PersistedLine (entry_event_id e) (entry_message e)]) ∧
          select_columns r = (entry_event_id e, entry_timestamp e,
                              entry_message e, entry_severity e) ∧
          row_sent r = 0 ∧
          count_event_id (entry_event_id e) (conn ++ [r]) = 1%nat ∧
          unique_event_ids (conn ++ [r])).
Proof.
  intros Huniq. split; intros Hin.
  - split; [by apply persist_log_duplicate|by apply count_event_id_unique].
  - eexists. split; [by apply persist_log_fresh|].
    repeat split.
    + rewrite count_event_id_app, count_event_id_absent by done.
      unfold count_event_id. by rewrite filter_cons_True.
    + by apply unique_event_ids_snoc.
Qed.

(** A table with one record accepts a new event and skips a known one. *)
Lemma persist_log_append_witness :
  let conn := [mk_row 1 "e-1" "t1" "boot" "INFO" 0] in
  (persist_log conn (mk_entry "e-1" "t2" "again" "INFO")
   = Return (conn, [DuplicateLine "e-1"]) ∧
   count_event_id "e-1" conn = 1%nat) ∧
  ∃ r, persist_log conn (mk_entry "e-2" "t2" "disk ERROR" "ERROR")
       = Return (conn ++ [r], [PersistedLine "e-2" "disk ERROR"]) ∧
       select_columns r = ("e-2", "t2", "disk ERROR", "ERROR") ∧
       row_sent r = 0 ∧
       count_event_id "e-2" (conn ++ [r]) = 1%nat ∧
       unique_event_ids (conn ++ [r]).
Proof.
  intros conn.
  assert (Huniq : unique_event_ids conn) by (apply NoDup_singleton).
  split.
  - apply (persist_log_append conn (mk_entry "e-1" "t2" "again" "INFO") Huniq).
    vm_compute. apply list_elem_of_here.
  - apply (persist_log_append conn (mk_entry "e-2" "t2" "disk ERROR" "ERROR")
             Huniq).
    simpl. rewrite list_elem_of_singleton. discriminate.
Defined.

(** ** Fetching the oldest unsent records *)

Global Instance id_le_transitive : Transitive id_le.
Proof. unfold id_le. intros r1 r2 r3. lia. Qed.

Global Instance id_le_total : Total id_le.
Proof. unfold id_le. intros r1 r2. lia. Qed.

(** The unsent records in the order of their ids. *)
Lemma sorted_unsent_Permutation conn :
  merge_sort id_le (filter unsent conn) ≡ₚ filter unsent conn.
Proof. apply merge_sort_Permutation. Qed.

Lemma sorted_unsent_sorted conn :
  StronglySorted id_le (merge_sort id_le (filter unsent conn)).
Proof. apply StronglySorted_merge_sort; apply _. Qed.

Lemma elem_of_sorted_unsent conn r :
  r ∈ merge_sort id_le (filter unsent conn) ↔ unsent r ∧ r ∈ conn.
Proof. by rewrite sorted_unsent_Permutation, list_elem_of_filter. Qed.

Lemma sql_limit_sublist {A} limit (l : list A) : sql_limit limit l `sublist_of` l.
Proof.
  unfold sql_limit. case_decide; [done|apply sublist_take].
Qed.

(** What [LIMIT] cuts off: the list is the kept part followed by the rest. *)
Lemma sql_limit_split {A} limit (l : list A) :
  ∃ rest, l = sql_limit limit l ++ rest.
Proof.
  unfold sql_limit. case_decide.
  - exists []. by rewrite app_nil_r.
  - exists (drop (Z.to_nat limit) l). by rewrite take_drop.
Qed.

Lemma sql_limit_length {A} limit (l : list A) :
  length (sql_limit limit l)
  = if decide (limit < 0) then length l
    else Nat.min (Z.to_nat limit) (length l).
Proof. unfold sql_limit. case_decide; [done|apply length_take]. Qed.

Lemma select_unsent_elem conn limit r :
  r ∈ select_unsent conn limit → r ∈ conn ∧ unsent r.
Proof.
  intros Hr. eapply elem_of_sublist in Hr; [|apply sql_limit_sublist].
  apply elem_of_sorted_unsent in Hr. tauto.
Qed.

Lemma select_unsent_sorted conn limit :
  StronglySorted id_le (select_unsent conn limit).
Proof.
  unfold select_unsent.
  destruct (sql_limit_split limit (merge_sort id_le (filter unsent conn)))
    as [rest Hsplit].
  pose proof (sorted_unsent_sorted conn) as Hsorted.
  rewrite Hsplit in Hsorted. by apply StronglySorted_app_1_l in Hsorted.
Qed.

(** Every unsent record that was not selected is at least as young as every
    selected one. *)
Lemma select_unsent_oldest conn limit r r' :
  r ∈ select_unsent conn limit → r' ∈ conn → unsent r' →
  r' ∉ select_unsent conn limit → id_le r r'.
Proof.
  unfold select_unsent. intros Hr Hconn Hunsent Hnot.
  destruct (sql_limit_split limit (merge_sort id_le (filter unsent conn)))
    as [rest Hsplit].
  pose proof (sorted_unsent_sorted conn) as Hsorted.
  assert (Hin : r' ∈ merge_sort id_le (filter unsent conn))
    by by apply elem_of_sorted_unsent.
  rewrite Hsplit in Hsorted, Hin.
  apply elem_of_app in Hin as [Hin|Hin]; [done|].
  by eapply StronglySorted_app_1_elem_of.
Qed.

Lemma unique_ids_sublist conn sel :
  unique_ids conn → sel `sublist_of` conn → unique_ids sel.
Proof.
  unfold unique_ids. intros Hnd Hsub.
  eapply sublist_NoDup; [done|]. by apply fmap_sublist.
Qed.

Lemma unique_ids_Permutation conn conn' :
  conn ≡ₚ conn' → unique_ids conn → unique_ids conn'.
Proof. unfold unique_ids. by intros ->. Qed.

Lemma select_unsent_unique_ids conn limit :
  unique_ids conn → unique_ids (select_unsent conn limit).
Proof.
  intros Hnd. eapply unique_ids_sublist; [|apply sql_limit_sublist].
  eapply unique_ids_Permutation; [symmetry; apply sorted_unsent_Permutation|].
  eapply unique_ids_sublist; [done|apply sublist_filter].
Qed.

(** With unique ids, ascending order is strict. *)
Lemma sorted_strict l :
  unique_ids l → StronglySorted id_le l →
  StronglySorted (λ r1 r2, row_id r1 < row_id r2) l.
Proof.
  unfold unique_ids. induction l as [|r l IH]; [constructor|].
  rewrite fmap_cons, NoDup_cons, !StronglySorted_cons.
  intros [Hfresh Hnd] [Hle Hsorted]. split; [|by apply IH].
  rewrite Forall_forall in Hle |- *. intros r' Hr'.
  specialize (Hle r' Hr'). unfold id_le in Hle.
  assert (row_id r ≠ row_id r'); [|lia].
  intros Heq. apply Hfresh. rewrite Heq. by apply list_elem_of_fmap_2.
Qed.

(** A column without repeated values identifies the record. *)
Lemma NoDup_fmap_elem_inj {A B} (f : A → B) (l : list A) x y :
  NoDup (f <$> l) → x ∈ l → y ∈ l → f x = f y → x = y.
Proof.
  induction l as [|a l IH]; [by intros _ ?%elem_of_nil|].
  rewrite fmap_cons, NoDup_cons. intros [Hfresh Hnd] Hx Hy Heq.
  apply elem_of_cons in Hx as [->|Hx]; apply elem_of_cons in Hy as [->|Hy].
  - done.
  - exfalso. apply Hfresh. rewrite Heq. by apply list_elem_of_fmap_2.
  - exfalso. apply Hfresh. rewrite <- Heq. by apply list_elem_of_fmap_2.
  - by apply IH.
Qed.

Section FetchUnsent.
Context {C : Type} `{Collection C}.

(** C7, as amended: for a limit that SQLite accepts, [fetch_unsent]
    returns the columns of unsent records of the table, in strictly
    ascending order of id, every unsent record left out being younger
    than every record returned; a limit [>= 0] keeps at most [limit]
    records (all unsent ones when there are fewer), a negative limit
    keeps every unsent record; the table is not modified. *)
Theorem fetch_unsent_oldest_first (conn : list outbox_row) (limit : Z) :
  unique_ids conn → fits_sqlite_integer limit →
  let sel := select_unsent conn limit in
  fetch_unsent conn limit = Return (select_columns <$> sel) ∧
  (∀ r, r ∈ sel → r ∈ conn ∧ unsent r) ∧
  StronglySorted (λ r1 r2, row_id r1 < row_id r2) sel ∧
  (∀ r r', r ∈ sel → r' ∈ conn → unsent r' → r' ∉ sel →
           row_id r < row_id r') ∧
  (0 ≤ limit →
   length sel = Nat.min (Z.to_nat limit) (length (filter unsent conn))) ∧
  (limit < 0 → length sel = length (filter unsent conn)) ∧
  run_op (C := C) (OpFetchUnsent limit) conn = conn.
Proof.
  intros Hids Hfits sel. split_and!.
  - unfold fetch_unsent. by rewrite decide_True.
  - intros r. apply select_unsent_elem.
  - apply sorted_strict; [by apply select_unsent_unique_ids|].
    apply select_unsent_sorted.
  - intros r r' Hr Hconn Hunsent Hnot.
    pose proof (select_unsent_oldest conn limit r r' Hr Hconn Hunsent Hnot)
      as Hle.
    unfold id_le in Hle.
    assert (row_id r ≠ row_id r'); [|lia].
    intros Heq. apply Hnot.
    destruct (select_unsent_elem conn limit r Hr) as [Hrconn _].
    by rewrite <- (NoDup_fmap_elem_inj row_id conn r r' Hids Hrconn Hconn Heq).
  - intros Hpos. unfold sel, select_unsent.
    rewrite sql_limit_length, decide_False by lia.
    by rewrite sorted_unsent_Permutation.
  - intros Hneg. unfold sel, select_unsent.
    rewrite sql_limit_length, decide_True by lia.
    by rewrite sorted_unsent_Permutation.
  - done.
Qed.
End FetchUnsent.

Lemma fetch_unsent_oldest_first_witness :
  fetch_unsent three_rows 1 = Return [("e-1", "t1", "boot", "INFO")] ∧
  length (select_unsent three_rows 1) = 1%nat.
Proof.
  assert (Hids : unique_ids three_rows).
  { unfold unique_ids. apply (bool_decide_unpack _). by vm_compute. }
  assert (Hfits : fits_sqlite_integer 1).
  { unfold fits_sqlite_integer. lia. }
  destruct (fetch_unsent_oldest_first (C := mem_coll) three_rows 1 Hids Hfits)
    as (Hfetch & _ & _ & _ & Hlen & _).
  split; [exact Hfetch|]. rewrite Hlen by lia. reflexivity.
Defined.

(** C7 as stated fails for a negative limit: [LIMIT -1] returns both unsent
    records, which is more than [limit] records. *)
Lemma fetch_unsent_negative_limit :
  fetch_unsent three_rows (-1)
  = Return [("e-1", "t1", "boot", "INFO"); ("e-3", "t3", "disk ERROR", "ERROR")]
  ∧ ¬ (Z.of_nat (length [("e-1", "t1", "boot", "INFO");
                         ("e-3", "t3", "disk ERROR", "ERROR")]) ≤ -1).
Proof. split; [reflexivity|simpl; lia]. Qed.

(** ** Sending a batch *)

Section SendBatch.
Context {C : Type} `{Collection C}.

(** The split of reconciliation: the ids of the batch that were found are
    the succeeded ones, the others the failed ones. *)
Lemma reconcile_partition (event_ids found_cursor : list string) :
  let found : gset string := list_to_set found_cursor in
  let succeeded := filter (λ eid, eid ∈ found) event_ids in
  let failed := filter (λ eid, eid ∉ found) event_ids in
  (∀ eid, eid ∈ succeeded ↔ eid ∈ event_ids ∧ eid ∈ found_cursor) ∧
  (∀ eid, eid ∈ failed ↔ eid ∈ event_ids ∧ eid ∉ found_cursor) ∧
  (∀ eid, eid ∈ succeeded → eid ∉ failed) ∧
  succeeded ++ failed ≡ₚ event_ids.
Proof.
  intros found succeeded failed. unfold succeeded, failed, found.
  split_and!.
  - intros eid. rewrite list_elem_of_filter, elem_of_list_to_set. tauto.
  - intros eid. rewrite list_elem_of_filter, elem_of_list_to_set. tauto.
  - intros eid. rewrite !list_elem_of_filter. tauto.
  - apply filter_app_complement.
Qed.

(** C1: for a non-empty batch, [send_batch_to_mongo] returns every
    [event_id] of the batch as succeeded and none as failed when the bulk
    insert succeeds; on a [BulkWriteError] it returns, without raising,
    the split of the batch's [event_id]s computed from the query of the
    remote store: those found are succeeded, the others failed; every
    other exception, of the insert or of the query, is raised. *)
Theorem send_batch_to_mongo_outcomes (coll : C) (docs : list mongo_doc) :
  docs ≠ [] →
  let event_ids := doc_event_id <$> docs in
  (∀ coll', insert_many coll docs = (coll', None) →
     send_batch_to_mongo coll docs = (coll', Return (event_ids, []))) ∧
  (∀ coll' found,
     insert_many coll docs = (coll', Some BulkWriteError) →
     find_event_ids coll' event_ids = Return found →
     ∃ succeeded failed,
       send_batch_to_mongo coll docs = (coll', Return (succeeded, failed)) ∧
       (∀ eid, eid ∈ succeeded ↔ eid ∈ event_ids ∧ eid ∈ found) ∧
       (∀ eid, eid ∈ failed ↔ eid ∈ event_ids ∧ eid ∉ found) ∧
       (∀ eid, eid ∈ succeeded → eid ∉ failed) ∧
       succeeded ++ failed ≡ₚ event_ids) ∧
  (∀ coll' e,
     insert_many coll docs = (coll', Some BulkWriteError) →
     find_event_ids coll' event_ids = Raise e →
     send_batch_to_mongo coll docs = (coll', Raise e)) ∧
  (∀ coll' e,
     insert_many coll docs = (coll', Some e) → e ≠ BulkWriteError →
     send_batch_to_mongo coll docs = (coll', Raise e)).
Proof.
  intros Hdocs event_ids. unfold send_batch_to_mongo.
  rewrite decide_False by done. split_and!.
  - by intros coll' ->.
  - intros coll' found -> Hfind. fold event_ids. rewrite Hfind.
    eexists _, _. split; [done|]. apply reconcile_partition.
  - intros coll' e -> Hfind. fold event_ids. by rewrite Hfind.
  - intros coll' e -> Hne. by destruct e.
Qed.
End SendBatch.

Lemma send_batch_to_mongo_outcomes_witness :
  let coll := mk_mem_coll [mk_doc "e-1" "t1" "boot" "INFO" "c0"] true
                          accept_all in
  let docs := [mk_doc "e-1" "t1" "boot" "INFO" "c1";
               mk_doc "e-2" "t2" "disk ERROR" "ERROR" "c2"] in
  ∃ coll' succeeded failed,
    send_batch_to_mongo coll docs = (coll', Return (succeeded, failed)) ∧
    succeeded ++ failed ≡ₚ ["e-1"; "e-2"].
Proof.
  intros coll docs.
  assert (Hdocs : docs ≠ []) by discriminate.
  destruct (send_batch_to_mongo_outcomes coll docs Hdocs)
    as (_ & Hbulk & _ & _).
  destruct (Hbulk (mk_mem_coll (mc_docs coll ++ [mk_doc "e-2" "t2" "disk ERROR"
                                                     "ERROR" "c2"]) true
                               accept_all)
                  ["e-1"; "e-2"] eq_refl eq_refl)
    as (succeeded & failed & Hsend & _ & _ & _ & Hperm).
  eexists; exists succeeded, failed. split; [exact Hsend|exact Hperm].
Defined.

(** ** Marking records as sent *)

Lemma mark_sent_fmap conn event_ids :
  mark_sent conn event_ids
  = (λ r, if decide (row_event_id r ∈ event_ids) then set_sent r else r)
      <$> conn.
Proof.
  unfold mark_sent. case_decide as Hnil; [|done]. subst.
  induction conn as [|r conn IH]; [done|].
  rewrite fmap_cons, <- IH. by rewrite decide_False by apply not_elem_of_nil.
Qed.

Lemma mark_sent_lookup conn event_ids i :
  mark_sent conn event_ids !! i
  = (λ r, if decide (row_event_id r ∈ event_ids) then set_sent r else r)
      <$> conn !! i.
Proof. by rewrite mark_sent_fmap, list_lookup_fmap. Qed.

Lemma mark_sent_length conn event_ids :
  length (mark_sent conn event_ids) = length conn.
Proof. by rewrite mark_sent_fmap, length_fmap. Qed.

Lemma mark_sent_event_ids conn event_ids :
  row_event_id <$> mark_sent conn event_ids = row_event_id <$> conn.
Proof.
  rewrite mark_sent_fmap, <- list_fmap_compose.
  apply list_fmap_ext. intros i r _. simpl. by case_decide.
Qed.

Lemma mark_sent_ids conn event_ids :
  row_id <$> mark_sent conn event_ids = row_id <$> conn.
Proof.
  rewrite mark_sent_fmap, <- list_fmap_compose.
  apply list_fmap_ext. intros i r _. simpl. by case_decide.
Qed.

Lemma same_record_refl r : same_record r r.
Proof. by repeat split. Qed.

Lemma same_record_set_sent r : same_record r (set_sent r).
Proof. by repeat split. Qed.

Lemma sent_never_reverts_refl conn : sent_never_reverts conn conn.
Proof. intros i r Hr. exists r. eauto using same_record_refl. Qed.

Lemma mark_sent_never_reverts conn event_ids :
  sent_never_reverts conn (mark_sent conn event_ids).
Proof.
  intros i r Hr. rewrite mark_sent_lookup, Hr. simpl.
  eexists. split; [done|]. case_decide.
  - split; [apply same_record_set_sent|done].
  - split; [apply same_record_refl|done].
Qed.

Lemma mark_sent_unique_event_ids conn event_ids :
  unique_event_ids conn → unique_event_ids (mark_sent conn event_ids).
Proof. unfold unique_event_ids. by rewrite mark_sent_event_ids. Qed.

Lemma mark_sent_unique_ids conn event_ids :
  unique_ids conn → unique_ids (mark_sent conn event_ids).
Proof. unfold unique_ids. by rewrite mark_sent_ids. Qed.

(** ** Flushing the outbox *)

Lemma build_docs_event_ids now_iso rows :
  doc_event_id <$> build_docs now_iso rows = (λ t, t.1.1.1) <$> rows.
Proof.
  unfold build_docs. rewrite fmap_imap, <- (imap_const _ rows).
  apply imap_ext. by intros i [[[eid ts] msg] sev] _.
Qed.

Lemma select_columns_event_ids (sel : list outbox_row) :
  (λ t, t.1.1.1) <$> (select_columns <$> sel) = row_event_id <$> sel.
Proof. by rewrite <- list_fmap_compose. Qed.

Lemma fetch_unsent_Return conn limit rows :
  fetch_unsent conn limit = Return rows →
  rows = select_columns <$> select_unsent conn limit.
Proof. unfold fetch_unsent. case_decide; congruence. Qed.

Section Flush.
Context {C : Type} `{Collection C}.

(** Whatever [send_batch_to_mongo] returns splits the ids of the batch. *)
Lemma send_batch_to_mongo_split (coll coll' : C) docs succeeded failed :
  send_batch_to_mongo coll docs = (coll', Return (succeeded, failed)) →
  succeeded ++ failed ≡ₚ doc_event_id <$> docs ∧
  (∀ eid, eid ∈ succeeded → eid ∉ failed).
Proof.
  unfold send_batch_to_mongo. case_decide as Hdocs.
  { intros [= <- <- <-]. subst. split; [done|]. by intros eid ?%elem_of_nil. }
  destruct (insert_many coll docs) as [coll1 [e|]].
  - destruct e; try by intros [=].
    destruct (find_event_ids coll1 _) as [found|e] eqn:Hfind;
      [|by intros [=]].
    intros [= <- <- <-].
    pose proof (reconcile_partition (doc_event_id <$> docs) found)
      as (_ & _ & Hdisj & Hperm).
    done.
  - intros [= <- <- <-]. rewrite app_nil_r.
    split; [done|]. by intros eid _ ?%elem_of_nil.
Qed.

(** A flush whose batch was split into [succeeded] and [failed] marks the
    succeeded ids and returns normally. *)
Lemma flush_outbox_returned b now_iso conn (coll coll' : C) rows succeeded
    failed :
  fetch_unsent conn b = Return rows → rows ≠ [] →
  send_batch_to_mongo coll (build_docs now_iso rows)
  = (coll', Return (succeeded, failed)) →
  let fl := flush_outbox b now_iso conn coll in
  fl_conn fl = mark_sent conn succeeded ∧ fl_coll fl = coll' ∧
  fl_result fl = Return ().
Proof.
  intros Hfetch Hrows Hsend. unfold flush_outbox.
  rewrite Hfetch, decide_False, Hsend by done. simpl.
  split; [|done]. case_decide as Hnil; [|done]. by rewrite Hnil.
Qed.

(** In every case the table after a flush is the table before it with
    some records of the fetched batch marked. *)
Lemma flush_outbox_conn b now_iso conn (coll : C) :
  ∃ event_ids,
    fl_conn (flush_outbox b now_iso conn coll) = mark_sent conn event_ids.
Proof.
  unfold flush_outbox.
  destruct (fetch_unsent conn b) as [rows|e]; [|by exists []].
  case_decide; [by exists []|].
  destruct (send_batch_to_mongo coll _) as [coll' [[succeeded failed]|e]];
    [|by exists []].
  simpl. exists succeeded. case_decide as Hnil; [|done]. by rewrite Hnil.
Qed.
End Flush.

Section FlushFrame.
Context {C : Type} `{Collection C}.

(** C8: when the batch of a flush is split into [succeeded] and [failed],
    every record whose [event_id] is in [failed] is left as it was, with
    [sent = 0]; a record is changed only if its [event_id] is in
    [succeeded], and then only its [sent] flag is set. *)
Theorem flush_outbox_frame b now_iso conn (coll coll' : C) rows succeeded
    failed :
  unique_event_ids conn →
  fetch_unsent conn b = Return rows → rows ≠ [] →
  send_batch_to_mongo coll (build_docs now_iso rows)
  = (coll', Return (succeeded, failed)) →
  let conn' := fl_conn (flush_outbox b now_iso conn coll) in
  length conn' = length conn ∧
  (∀ i r, conn !! i = Some r → row_event_id r ∈ failed →
          conn' !! i = Some r ∧ row_sent r = 0) ∧
  (∀ i r, conn !! i = Some r → row_event_id r ∉ succeeded →
          conn' !! i = Some r) ∧
  (∀ i r, conn !! i = Some r → row_event_id r ∈ succeeded →
          conn' !! i = Some (set_sent r)).
Proof.
  intros Huniq Hfetch Hrows Hsend conn'.
  destruct (flush_outbox_returned b now_iso conn coll coll' rows succeeded
              failed Hfetch Hrows Hsend) as (Hconn & _ & _).
  fold conn' in Hconn. rewrite Hconn.
  destruct (send_batch_to_mongo_split _ _ _ _ _ Hsend) as [Hperm Hdisj].
  rewrite build_docs_event_ids, (fetch_unsent_Return _ _ _ Hfetch),
    select_columns_event_ids in Hperm.
  split_and!.
  - apply mark_sent_length.
  - intros i r Hr Hfailed.
    assert (Hnot : row_event_id r ∉ succeeded) by (intros ?; by eapply Hdisj).
    split.
    + rewrite mark_sent_lookup, Hr. simpl. by rewrite decide_False.
    + assert (Hbatch : row_event_id r ∈ row_event_id <$> select_unsent conn b).
      { rewrite <- Hperm, elem_of_app. by right. }
      apply list_elem_of_fmap in Hbatch as (r0 & Heq & Hr0).
      apply select_unsent_elem in Hr0 as [Hr0 Hunsent].
      assert (r = r0) as ->; [|done].
      eapply (NoDup_fmap_elem_inj row_event_id conn); eauto.
      by eapply list_elem_of_lookup_2.
  - intros i r Hr Hnot.
    rewrite mark_sent_lookup, Hr. simpl. by rewrite decide_False.
  - intros i r Hr Hin.
    rewrite mark_sent_lookup, Hr. simpl. by rewrite decide_True.
Qed.
End FlushFrame.

(** The server stores e-1 and refuses e-3: the record of e-3 stays as it
    was, unsent. *)
Lemma flush_outbox_frame_witness :
  let coll := mk_mem_coll [] true refuse_errors in
  let conn' := fl_conn (flush_outbox 5 noon three_rows coll) in
  length conn' = length three_rows ∧
  conn' !! 0%nat = Some (mk_row 3 "e-3" "t3" "disk ERROR" "ERROR" 0) ∧
  conn' !! 2%nat = Some (mk_row 1 "e-1" "t1" "boot" "INFO" 1).
Proof.
  intros coll conn'.
  assert (Huniq : unique_event_ids three_rows).
  { unfold unique_event_ids. apply (bool_decide_unpack _). by vm_compute. }
  pose (rows := [("e-1", "t1", "boot", "INFO");
                 ("e-3", "t3", "disk ERROR", "ERROR")] : list unsent_tuple).
  pose (coll' := mk_mem_coll [mk_doc "e-1" "t1" "boot" "INFO" (noon 0)] true
                   refuse_errors).
  assert (Hfetch : fetch_unsent three_rows 5 = Return rows) by reflexivity.
  assert (Hrows : rows ≠ []) by discriminate.
  assert (Hsend : send_batch_to_mongo coll (build_docs noon rows)
                  = (coll', Return (["e-1"], ["e-3"]))) by reflexivity.
  destruct (flush_outbox_frame 5 noon three_rows coll coll' rows ["e-1"]
              ["e-3"] Huniq Hfetch Hrows Hsend)
    as (Hlen & Hfailed & _ & Hsucceeded).
  split; [exact Hlen|]. split.
  - apply (Hfailed 0%nat (mk_row 3 "e-3" "t3" "disk ERROR" "ERROR" 0));
      [reflexivity|]. apply list_elem_of_here.
  - apply (Hsucceeded 2%nat (mk_row 1 "e-1" "t1" "boot" "INFO" 0));
      [reflexivity|]. apply list_elem_of_here.
Defined.

(** ** Invariants of the outbox *)

Lemma next_rowid_above conn r : r ∈ conn → row_id r < next_rowid conn.
Proof.
  unfold next_rowid. induction conn as [|x conn IH]; [by intros ?%elem_of_nil|].
  rewrite fmap_cons. cbn [foldr].
  intros [->|Hr]%elem_of_cons; [lia|]. specialize (IH Hr). lia.
Qed.

Lemma next_rowid_fresh conn : next_rowid conn ∉ row_id <$> conn.
Proof.
  intros (r & Heq & Hr)%list_elem_of_fmap.
  apply next_rowid_above in Hr. lia.
Qed.

Lemma persist_log_conn conn e conn' out :
  persist_log conn e = Return (conn', out) →
  conn' = conn ∨
  ((entry_event_id e ∉ row_event_id <$> conn) ∧
   conn' = conn ++ [mk_row (next_rowid conn) (entry_event_id e)
                      (entry_timestamp e) (entry_message e)
                      (entry_severity e) 0]).
Proof.
  destruct (decide (entry_event_id e ∈ row_event_id <$> conn)) as [Hin|Hnot].
  - rewrite persist_log_duplicate by done. intros [= <- _]. by left.
  - rewrite persist_log_fresh by done. intros [= <- _]. by right.
Qed.

Lemma sent_never_reverts_snoc conn r : sent_never_reverts conn (conn ++ [r]).
Proof.
  intros i r0 Hr0. exists r0. rewrite lookup_app_l by by eapply lookup_lt_Some.
  eauto using same_record_refl.
Qed.

Lemma unique_ids_snoc conn r :
  unique_ids conn → row_id r ∉ row_id <$> conn → unique_ids (conn ++ [r]).
Proof.
  unfold unique_ids. intros Hnd Hnot.
  rewrite fmap_app. apply NoDup_app. split; [done|]. split.
  - intros x Hx Hx'. apply list_elem_of_singleton in Hx'. by subst.
  - apply NoDup_singleton.
Qed.

Section Invariants.
Context {C : Type} `{Collection C}.

(** Each store operation keeps the constraints of the table and never
    resets a [sent] flag. *)
Lemma run_op_preserves (op : store_op C) conn :
  unique_event_ids conn → unique_ids conn →
  unique_event_ids (run_op op conn) ∧ unique_ids (run_op op conn) ∧
  sent_never_reverts conn (run_op op conn).
Proof.
  intros Hev Hid. destruct op as [e|limit|event_ids|b now_iso coll]; simpl.
  - destruct (persist_log conn e) as [[conn' out]|err] eqn:Hpersist;
      [|by eauto using sent_never_reverts_refl].
    apply persist_log_conn in Hpersist as [->|[Hfresh ->]];
      [by eauto using sent_never_reverts_refl|].
    split_and!.
    + by apply unique_event_ids_snoc.
    + apply unique_ids_snoc; [done|apply next_rowid_fresh].
    + apply sent_never_reverts_snoc.
  - eauto using sent_never_reverts_refl.
  - eauto using mark_sent_unique_event_ids, mark_sent_unique_ids,
      mark_sent_never_reverts.
  - destruct (flush_outbox_conn b now_iso conn coll) as [event_ids ->].
    eauto using mark_sent_unique_event_ids, mark_sent_unique_ids,
      mark_sent_never_reverts.
Qed.

Lemma reachable_unique conn :
  reachable (C := C) conn → unique_event_ids conn ∧ unique_ids conn.
Proof.
  induction 1 as [|conn op _ [Hev Hid]].
  - split; apply NoDup_nil_2.
  - destruct (run_op_preserves op conn Hev Hid) as (? & ? & _). done.
Qed.

(** C3: in every reachable state of the table the [event_id]s are unique,
    and each of [persist_log], [fetch_unsent], [mark_sent] and
    [flush_outbox] leads to a table whose [event_id]s are unique and in
    which every record of the table before is still present, still sent
    if it was sent. *)
Theorem store_invariants (op : store_op C) conn :
  reachable (C := C) conn →
  unique_event_ids conn ∧
  unique_event_ids (run_op op conn) ∧
  sent_never_reverts conn (run_op op conn).
Proof.
  intros [Hev Hid]%reachable_unique.
  destruct (run_op_preserves op conn Hev Hid) as (? & _ & ?). done.
Qed.
End Invariants.

Lemma store_invariants_witness :
  let conn := run_op (C := mem_coll)
                (OpPersistLog (mk_entry "e-1" "t1" "boot" "INFO")) [] in
  let op := OpFlushOutbox 5 noon (mk_mem_coll [] true accept_all) in
  unique_event_ids conn ∧
  unique_event_ids (run_op op conn) ∧
  sent_never_reverts conn (run_op op conn).
Proof.
  intros conn op. apply (store_invariants op conn).
  apply reachable_step, reachable_empty.
Defined.

(** ** Draining the outbox into a store that accepts every insert *)

Lemma insert_unordered_fresh rejects stored docs :
  (∀ d, rejects d = false) →
  NoDup (doc_event_id <$> docs) →
  (∀ d, d ∈ docs → doc_event_id d ∉ doc_event_id <$> stored) →
  insert_unordered rejects stored docs = (stored ++ docs, false).
Proof.
  intros Hrej. revert stored.
  induction docs as [|d docs IH]; intros stored Hnd Hfresh; simpl.
  { by rewrite app_nil_r. }
  rewrite fmap_cons, NoDup_cons in Hnd. destruct Hnd as [Hd Hnd].
  rewrite Hrej, bool_decide_eq_false_2 by (apply Hfresh; left). simpl.
  rewrite IH, <- app_assoc; [done|done|].
  intros d' Hd'. rewrite fmap_app, elem_of_app. intros [Hin|Hin].
  - eapply Hfresh; [by right|done].
  - apply list_elem_of_singleton in Hin. apply Hd. rewrite <- Hin.
    by apply list_elem_of_fmap_2.
Qed.

Lemma filter_none {A} (P : A → Prop) `{∀ x, Decision (P x)} (l : list A) :
  (∀ x, x ∈ l → ¬ P x) → filter P l = [].
Proof.
  induction l as [|x l IH]; [done|]. intros Hl.
  rewrite filter_cons_False by (apply Hl; left).
  apply IH. intros y Hy. apply Hl. by right.
Qed.

Lemma filter_all {A} (P : A → Prop) `{∀ x, Decision (P x)} (l : list A) :
  (∀ x, x ∈ l → P x) → filter P l = l.
Proof.
  induction l as [|x l IH]; [done|]. intros Hl.
  rewrite filter_cons_True by (apply Hl; left).
  f_equal. apply IH. intros y Hy. apply Hl. by right.
Qed.

(** The records that are still unsent after [mark_sent]. *)
Lemma filter_unsent_mark_sent conn event_ids :
  filter unsent (mark_sent conn event_ids)
  = filter (λ r, row_event_id r ∉ event_ids) (filter unsent conn).
Proof.
  rewrite mark_sent_fmap. induction conn as [|r conn IH]; [done|].
  rewrite fmap_cons, (filter_cons unsent r).
  destruct (decide (row_event_id r ∈ event_ids)) as [Hin|Hnot].
  - rewrite filter_cons_False by (unfold unsent; simpl; lia).
    rewrite IH. destruct (decide (unsent r)); [|done].
    by rewrite filter_cons_False by tauto.
  - rewrite (filter_cons unsent r), IH. destruct (decide (unsent r)); [|done].
    by rewrite filter_cons_True.
Qed.

(** In a list without repeated [event_id]s, dropping the records whose
    [event_id] is one of a front part leaves the rest. *)
Lemma filter_out_batch (batch rest : list outbox_row) :
  unique_event_ids (batch ++ rest) →
  filter (λ r, row_event_id r ∉ row_event_id <$> batch) (batch ++ rest) = rest.
Proof.
  unfold unique_event_ids. rewrite fmap_app, NoDup_app.
  intros (_ & Hdisj & _). rewrite filter_app, filter_none, filter_all; [done|..].
  - intros r Hr Hin. eapply Hdisj; [done|]. by apply list_elem_of_fmap_2.
  - intros r Hr Hnot. apply Hnot. by apply list_elem_of_fmap_2.
Qed.

Lemma unique_event_ids_sublist conn sel :
  unique_event_ids conn → sel `sublist_of` conn → unique_event_ids sel.
Proof.
  unfold unique_event_ids. intros Hnd Hsub.
  eapply sublist_NoDup; [done|]. by apply fmap_sublist.
Qed.

Lemma sorted_unsent_unique_event_ids conn :
  unique_event_ids conn →
  unique_event_ids (merge_sort id_le (filter unsent conn)).
Proof.
  intros Hnd. unfold unique_event_ids.
  rewrite sorted_unsent_Permutation.
  eapply unique_event_ids_sublist; [done|apply sublist_filter].
Qed.

Lemma insert_many_accepted (coll : mem_coll) docs :
  mc_online coll = true → (∀ d, mc_rejects coll d = false) →
  NoDup (doc_event_id <$> docs) →
  (∀ d, d ∈ docs → doc_event_id d ∉ doc_event_id <$> mc_docs coll) →
  insert_many coll docs
  = (mk_mem_coll (mc_docs coll ++ docs) true (mc_rejects coll), None).
Proof.
  intros Honline Hrej Hnd Hfresh. simpl.
  by rewrite Honline, insert_unordered_fresh.
Qed.

(** One flush into a store that accepts every insert: the batch is the
    oldest unsent records, up to [b] of them; all of it is stored remotely
    and marked sent, and the store accepts what is left as well. *)
Lemma flush_outbox_drains b now_iso conn (coll : mem_coll) :
  0 < b < 2 ^ 63 → unique_event_ids conn → accepts_outbox coll conn →
  filter unsent conn ≠ [] →
  let batch := select_unsent conn b in
  let docs := build_docs now_iso (select_columns <$> batch) in
  let fl := flush_outbox b now_iso conn coll in
  fl_result fl = Return () ∧
  head (fl_console fl) = Some (SentBatchLine (length batch)) ∧
  fl_conn fl = mark_sent conn (row_event_id <$> batch) ∧
  fl_coll fl = mk_mem_coll (mc_docs coll ++ docs) true (mc_rejects coll) ∧
  doc_event_id <$> docs = row_event_id <$> batch ∧
  length batch = Nat.min (Z.to_nat b) (length (filter unsent conn)) ∧
  row_event_id <$> filter unsent conn
    ≡ₚ (row_event_id <$> batch) ++ (row_event_id <$> filter unsent (fl_conn fl)) ∧
  unique_event_ids (fl_conn fl) ∧ accepts_outbox (fl_coll fl) (fl_conn fl).
Proof.
  intros Hb Huniq (Honline & Hrej & Hfresh) Hsome batch docs fl.
  destruct (sql_limit_split b (merge_sort id_le (filter unsent conn)))
    as [rest Hsplit].
  fold (select_unsent conn b) in Hsplit. fold batch in Hsplit.
  assert (Hlen : length batch
                 = Nat.min (Z.to_nat b) (length (filter unsent conn))).
  { unfold batch, select_unsent.
    rewrite sql_limit_length, decide_False by lia.
    by rewrite sorted_unsent_Permutation. }
  assert (Hbatch : batch ≠ []).
  { intros Hnil. rewrite Hnil in Hlen. simpl in Hlen.
    destruct (filter unsent conn); [done|]. simpl in Hlen. lia. }
  assert (Hids : doc_event_id <$> docs = row_event_id <$> batch).
  { unfold docs. by rewrite build_docs_event_ids, select_columns_event_ids. }
  assert (Hdocs : docs ≠ []).
  { intros Hnil. rewrite Hnil in Hids. symmetry in Hids.
    by apply fmap_nil_inv in Hids. }
  assert (Hsorted_uniq : unique_event_ids (batch ++ rest)).
  { rewrite <- Hsplit. by apply sorted_unsent_unique_event_ids. }
  assert (Hbatch_uniq : NoDup (row_event_id <$> batch)).
  { unfold unique_event_ids in Hsorted_uniq.
    rewrite fmap_app, NoDup_app in Hsorted_uniq. tauto. }
  assert (Hinsert : insert_many coll docs
            = (mk_mem_coll (mc_docs coll ++ docs) true (mc_rejects coll), None)).
  { apply insert_many_accepted; [done|done|by rewrite Hids|].
    intros d Hd.
    assert (Hin : doc_event_id d ∈ row_event_id <$> batch).
    { rewrite <- Hids. by apply list_elem_of_fmap_2. }
    apply list_elem_of_fmap in Hin as (r & -> & Hr).
    apply select_unsent_elem in Hr as [Hr Hunsent]. by apply Hfresh. }
  assert (Hsend : send_batch_to_mongo coll docs
            = (mk_mem_coll (mc_docs coll ++ docs) true (mc_rejects coll),
               Return (row_event_id <$> batch, []))).
  { unfold send_batch_to_mongo.
    by rewrite decide_False, Hinsert, Hids by done. }
  assert (Hfl : fl = mk_flushed (mark_sent conn (row_event_id <$> batch))
            (mk_mem_coll (mc_docs coll ++ docs) true (mc_rejects coll))
            (SentBatchLine (length (row_event_id <$> batch))
               :: ((λ eid, SentEventLine eid (message_of docs eid))
                     <$> (row_event_id <$> batch)))
            (Return ())).
  { unfold fl, flush_outbox, fetch_unsent.
    rewrite decide_True by (unfold fits_sqlite_integer; lia).
    fold batch. rewrite decide_False by by intros ?%fmap_nil_inv.
    fold docs. rewrite Hsend.
    rewrite !decide_False by by intros ?%fmap_nil_inv.
    rewrite decide_True by done. by rewrite app_nil_r. }
  assert (Hleft : filter unsent (fl_conn fl) ≡ₚ rest).
  { rewrite Hfl. simpl. rewrite filter_unsent_mark_sent.
    rewrite <- (sorted_unsent_Permutation conn), Hsplit.
    by rewrite filter_out_batch. }
  rewrite Hfl. rewrite Hfl in Hleft. simpl in *. split_and!; try done.
  - by rewrite length_fmap.
  - rewrite <- fmap_app. apply fmap_Permutation.
    by rewrite Hleft, <- Hsplit, sorted_unsent_Permutation.
  - by apply mark_sent_unique_event_ids.
  - split_and!; [done|done|]. simpl. intros r Hr Hunsent.
    assert (Hin : r ∈ filter unsent (mark_sent conn (row_event_id <$> batch))).
    { by apply list_elem_of_filter. }
    rewrite filter_unsent_mark_sent, !list_elem_of_filter in Hin.
    destruct Hin as (Hnot & Hunsent0 & Hconn).
    rewrite fmap_app, elem_of_app, Hids. intros [Hin|Hin]; [|done].
    by eapply Hfresh.
Qed.

Lemma mark_sent_lookup_cases conn event_ids i r :
  conn !! i = Some r →
  mark_sent conn event_ids !! i = Some r ∨
  mark_sent conn event_ids !! i = Some (set_sent r).
Proof.
  intros Hr. rewrite mark_sent_lookup, Hr. simpl. case_decide; auto.
Qed.

(** C4: from a table with exactly 12 unsent records and a remote store that
    accepts every insert, three calls of [flush_outbox] with
    [BATCH_SIZE = 5] send batches of 5, 5 and 2 documents; after them no
    record is unsent, each of the 12 records has its [sent] flag set, and
    the remote store has received exactly the 12 [event_id]s. *)
Theorem drain_twelve_in_three_flushes now1 now2 now3 conn (coll : mem_coll) :
  unique_event_ids conn → length (filter unsent conn) = 12%nat →
  accepts_outbox coll conn →
  let fl1 := flush_outbox 5 now1 conn coll in
  let fl2 := flush_outbox 5 now2 (fl_conn fl1) (fl_coll fl1) in
  let fl3 := flush_outbox 5 now3 (fl_conn fl2) (fl_coll fl2) in
  ∃ docs1 docs2 docs3,
    (fl_result fl1 = Return () ∧
     head (fl_console fl1) = Some (SentBatchLine 5) ∧
     mc_docs (fl_coll fl1) = mc_docs coll ++ docs1 ∧
     length docs1 = 5%nat) ∧
    (fl_result fl2 = Return () ∧
     head (fl_console fl2) = Some (SentBatchLine 5) ∧
     mc_docs (fl_coll fl2) = mc_docs (fl_coll fl1) ++ docs2 ∧
     length docs2 = 5%nat) ∧
    (fl_result fl3 = Return () ∧
     head (fl_console fl3) = Some (SentBatchLine 2) ∧
     mc_docs (fl_coll fl3) = mc_docs (fl_coll fl2) ++ docs3 ∧
     length docs3 = 2%nat) ∧
    filter unsent (fl_conn fl3) = [] ∧
    (∀ i r, conn !! i = Some r → unsent r →
            fl_conn fl3 !! i = Some (set_sent r)) ∧
    length (docs1 ++ docs2 ++ docs3) = 12%nat ∧
    doc_event_id <$> (docs1 ++ docs2 ++ docs3)
      ≡ₚ row_event_id <$> filter unsent conn.
Proof.
  intros Huniq Hlen Hacc fl1 fl2 fl3.
  assert (Hb : 0 < 5 < 2 ^ 63) by lia.
  (* first flush *)
  destruct (flush_outbox_drains 5 now1 conn coll Hb Huniq Hacc)
    as (Hres1 & Hout1 & Hconn1 & Hcoll1 & Hids1 & Hlen1 & Hperm1 & Huniq1
        & Hacc1).
  { intros Hnil. by rewrite Hnil in Hlen. }
  fold fl1 in Hres1, Hout1, Hconn1, Hcoll1, Hperm1, Huniq1, Hacc1.
  rewrite Hlen in Hlen1. simpl in Hlen1.
  pose proof (Permutation_length Hperm1) as Hcount1.
  rewrite length_app, !length_fmap, Hlen, Hlen1 in Hcount1.
  (* second flush *)
  destruct (flush_outbox_drains 5 now2 (fl_conn fl1) (fl_coll fl1) Hb Huniq1
              Hacc1)
    as (Hres2 & Hout2 & Hconn2 & Hcoll2 & Hids2 & Hlen2 & Hperm2 & Huniq2
        & Hacc2).
  { intros Hnil. rewrite Hnil in Hcount1. simpl in Hcount1. lia. }
  fold fl2 in Hres2, Hout2, Hconn2, Hcoll2, Hperm2, Huniq2, Hacc2.
  assert (Hleft1 : length (filter unsent (fl_conn fl1)) = 7%nat) by lia.
  rewrite Hleft1 in Hlen2. simpl in Hlen2.
  pose proof (Permutation_length Hperm2) as Hcount2.
  rewrite length_app, !length_fmap, Hleft1, Hlen2 in Hcount2.
  (* third flush *)
  destruct (flush_outbox_drains 5 now3 (fl_conn fl2) (fl_coll fl2) Hb Huniq2
              Hacc2)
    as (Hres3 & Hout3 & Hconn3 & Hcoll3 & Hids3 & Hlen3 & Hperm3 & Huniq3
        & Hacc3).
  { intros Hnil. rewrite Hnil in Hcount2. simpl in Hcount2. lia. }
  fold fl3 in Hres3, Hout3, Hconn3, Hcoll3, Hperm3, Huniq3, Hacc3.
  assert (Hleft2 : length (filter unsent (fl_conn fl2)) = 2%nat) by lia.
  rewrite Hleft2 in Hlen3. simpl in Hlen3.
  pose proof (Permutation_length Hperm3) as Hcount3.
  rewrite length_app, !length_fmap, Hleft2, Hlen3 in Hcount3.
  assert (Hleft3 : filter unsent (fl_conn fl3) = []).
  { apply nil_length_inv. lia. }
  (* the documents of the three batches *)
  eexists _, _, _. split_and!; try done.
  - by rewrite Hout1, Hlen1.
  - by rewrite Hcoll1.
  - by rewrite <- (length_fmap doc_event_id), Hids1, length_fmap.
  - by rewrite Hout2, Hlen2.
  - by rewrite Hcoll2.
  - by rewrite <- (length_fmap doc_event_id), Hids2, length_fmap.
  - by rewrite Hout3, Hlen3.
  - by rewrite Hcoll3.
  - by rewrite <- (length_fmap doc_event_id), Hids3, length_fmap.
  - intros i r Hr Hunsent.
    destruct (mark_sent_lookup_cases conn
                (row_event_id <$> select_unsent conn 5) i r Hr) as [H1|H1];
      rewrite <- Hconn1 in H1;
      (destruct (mark_sent_lookup_cases (fl_conn fl1)
                   (row_event_id <$> select_unsent (fl_conn fl1) 5) i _ H1)
         as [H2|H2]);
      rewrite <- Hconn2 in H2;
      (destruct (mark_sent_lookup_cases (fl_conn fl2)
                   (row_event_id <$> select_unsent (fl_conn fl2) 5) i _ H2)
         as [H3|H3]);
      rewrite <- Hconn3 in H3; try done.
    exfalso. eapply elem_of_nil. rewrite <- Hleft3.
    apply list_elem_of_filter. split; [done|]. by eapply list_elem_of_lookup_2.
  - rewrite !length_app, <- !(length_fmap doc_event_id), Hids1, Hids2, Hids3,
      !length_fmap. lia.
  - rewrite !fmap_app, Hids1, Hids2, Hids3, Hperm1, Hperm2, Hperm3, Hleft3.
    simpl. by rewrite app_nil_r.
Qed.

(** While the store is unreachable the twelve records stay unsent. *)
Example twelve_rows_unsent :
  row_event_id <$> twelve_rows = twelve_event_ids ∧
  row_id <$> twelve_rows = [1; 2; 3; 4; 5; 6; 7; 8; 9; 10; 11; 12] ∧
  filter unsent twelve_rows = twelve_rows.
Proof. by vm_compute. Qed.

Lemma drain_twelve_in_three_flushes_witness :
  let fl1 := flush_outbox 5 noon twelve_rows empty_store in
  let fl2 := flush_outbox 5 noon (fl_conn fl1) (fl_coll fl1) in
  let fl3 := flush_outbox 5 noon (fl_conn fl2) (fl_coll fl2) in
  (unique_event_ids twelve_rows ∧ length (filter unsent twelve_rows) = 12%nat ∧
   accepts_outbox empty_store twelve_rows) ∧
  head (fl_console fl1) = Some (SentBatchLine 5) ∧
  head (fl_console fl2) = Some (SentBatchLine 5) ∧
  head (fl_console fl3) = Some (SentBatchLine 2) ∧
  filter unsent (fl_conn fl3) = [] ∧
  doc_event_id <$> mc_docs (fl_coll fl3) ≡ₚ twelve_event_ids.
Proof.
  intros fl1 fl2 fl3.
  assert (Huniq : unique_event_ids twelve_rows).
  { unfold unique_event_ids. apply (bool_decide_unpack _). by vm_compute. }
  assert (Hlen : length (filter unsent twelve_rows) = 12%nat) by reflexivity.
  assert (Hacc : accepts_outbox empty_store twelve_rows).
  { split_and!; [done|done|]. intros r _ _. apply not_elem_of_nil. }
  destruct (drain_twelve_in_three_flushes noon noon noon twelve_rows
              empty_store Huniq Hlen Hacc)
    as (docs1 & docs2 & docs3 & (_ & Hout1 & Hdocs1 & _)
        & (_ & Hout2 & Hdocs2 & _) & (_ & Hout3 & Hdocs3 & _)
        & Hnone & _ & _ & Hperm).
  split_and!; done.
Defined.

(** ** Strings *)

Lemma string_app_length (s t : string) :
  String.length (s +:+ t) = (String.length s + String.length t)%nat.
Proof. induction s as [|c s IH]; simpl; [done|by rewrite IH]. Qed.










(** ** The classifier *)




Lemma parse_log_line_Some uuid4 now line :
  rstrip_nl line ≠ "" →
  parse_log_line uuid4 now line
  = Some (mk_entry uuid4 now (rstrip_nl line)
            (scan_levels levels (upper (rstrip_nl line)) "INFO")).
Proof. intros Hne. unfold parse_log_line. by rewrite decide_False. Qed.

Lemma parse_log_line_None uuid4 now line :
  rstrip_nl line = "" → parse_log_line uuid4 now line = None.
Proof. intros Heq. unfold parse_log_line. by rewrite decide_True. Qed.



(** ** The severities *)




(** ** Reading lines *)

Lemma split_line_no_newline (s : string) :
  no_newline s → split_line s = (s, "").
Proof.
  induction s as [|c s IH]; simpl; [done|]. intros [Hc Hs].
  by rewrite decide_False, IH.
Qed.

Lemma split_line_newline (body tail : string) :
  no_newline body →
  split_line (body +:+ String nl tail) = (body +:+ String nl "", tail).
Proof.
  induction body as [|c body IH]; simpl.
  - intros _. by rewrite ?decide_True.
  - intros [Hc Hbody]. by rewrite decide_False, IH.
Qed.

(** A line and the text after it make up the text that was split. *)
Lemma split_line_app (s : string) :
  s = (split_line s).1 +:+ (split_line s).2.
Proof.
  induction s as [|c s IH]; simpl; [done|]. case_decide; [done|].
  destruct (split_line s) as [line rest]. simpl in *. by rewrite <- IH.
Qed.

Lemma rstrip_nl_no_newline (s : string) : no_newline s → rstrip_nl s = s.
Proof.
  induction s as [|c s IH]; simpl; [done|]. intros [Hc Hs]. rewrite IH by done.
  destruct s; [by rewrite decide_False|done].
Qed.

Lemma no_newline_not_terminated (s : string) :
  no_newline s → ¬ newline_terminated s.
Proof.
  intros Hs [body ->]. induction body as [|c body IH]; simpl in Hs.
  - by destruct Hs.
  - apply IH. tauto.
Qed.

Lemma str_drop_add (n m : nat) (s : string) :
  str_drop (n + m) s = str_drop m (str_drop n s).
Proof.
  revert s. induction n as [|n IH]; intros s; simpl; [done|].
  destruct s; [by destruct m|apply IH].
Qed.

Lemma str_drop_app (s t : string) : str_drop (String.length s) (s +:+ t) = t.
Proof. induction s as [|c s IH]; simpl; [done|apply IH]. Qed.

Lemma str_drop_length (n : nat) (s : string) :
  (String.length (str_drop n s) ≤ String.length s)%nat.
Proof.
  revert s. induction n as [|n IH]; intros s; simpl; [done|].
  destruct s; simpl; [done|]. specialize (IH s). lia.
Qed.

(** What is left to read after [readline]. *)
Lemma readline_unread (f : fileobj) :
  let unread := str_drop (f_pos f) (f_data f) in
  (readline f).1 = (split_line unread).1 ∧
  str_drop (f_pos (readline f).2) (f_data (readline f).2)
  = (split_line unread).2.
Proof.
  intros unread. unfold readline. simpl. split; [done|].
  rewrite str_drop_add. fold unread.
  rewrite (split_line_app unread) at 2. apply str_drop_app.
Qed.

Lemma follow_next_unfold (f : fileobj) :
  follow_next f
  = let line := (split_line (str_drop (f_pos f) (f_data f))).1 in
    let f' := mk_file (f_data f) (f_pos f + String.length line) in
    if decide (line = "") then (None, f') else (Some line, f').
Proof. done. Qed.

(** C9 as stated fails: the writer has written [disk ERR] and not yet the
    rest of the line; [follow] yields the fragment, [monitor_line]
    classifies it as INFO and persists it; the rest of the line, written
    later, is yielded as a line of its own.  The inner loop of [tail_file]
    persists a fragment in the same way. *)
Lemma follow_emits_truncated_line :
  let f0 := seek_end (mk_file ("boot" +:+ String nl "") 0) in
  let f1 := appended "disk ERR" f0 in
  let f2 := appended ("OR: full" +:+ String nl "") (follow_next f1).2 in
  follow_next f1 = (Some "disk ERR", mk_file (f_data f1) 13) ∧
  ¬ newline_terminated "disk ERR" ∧
  monitor_line 5 noon "e-1" "t1" "disk ERR" [] unreachable_store
  = Return ([mk_row 1 "e-1" "t1" "disk ERR" "INFO" 0], unreachable_store,
            [PersistedLine "e-1" "disk ERR";
             SendErrorLine server_selection_timeout]) ∧
  (follow_next f2).1 = Some ("OR: full" +:+ String nl "") ∧
  tail_pass error_pattern noon false "/tmp/test.log"
    (Some (7, "disk ERROR: fu")) 0 None []
  = Some (14%nat, Some 7,
          [mk_match 1 (noon 2 +:+ "Z") "/tmp/test.log" "disk ERROR: fu" 0],
          [OpenedLine 7 0; MatchLine (noon 1 +:+ "Z") "disk ERROR: fu";
           PersistedMatchLine (noon 2 +:+ "Z") 1]).
Proof.
  split_and!; try reflexivity.
  apply no_newline_not_terminated. simpl. by repeat split.
Qed.

(** ** The inner loop of [tail_file] ends *)

Section TailLoop.
Variable pat_search : string → bool.
Variable utcnow : nat → string.

Lemma read_loop_returns fuel path (f : fileobj) db out :
  (String.length (str_drop (f_pos f) (f_data f)) < fuel)%nat →
  is_Some (read_loop pat_search utcnow fuel path f db out).
Proof.
  revert f db out. induction fuel as [|fuel IH]; intros f db out Hfuel;
    [lia|].
  pose proof (readline_unread f) as [Hline Hunread].
  cbv zeta in Hline, Hunread.
  pose proof (split_line_app (str_drop (f_pos f) (f_data f))) as Hsplit.
  cbn [read_loop]. destruct (readline f) as [line f'] eqn:Hread.
  simpl in Hline, Hunread. case_decide as Hempty; [done|].
  assert (Hless : (String.length (str_drop (f_pos f') (f_data f')) < fuel)%nat).
  { rewrite Hunread. rewrite Hsplit, string_app_length, <- Hline in Hfuel.
    destruct line; [done|]. simpl in Hfuel. lia. }
  destruct (pat_search (rstrip_nl line)); [|by apply IH].
  destruct (persist_match _ _ _ _) as [db' printed]. by apply IH.
Qed.

Lemma tail_pass_returns start_at_end path disk pos inode db :
  is_Some (tail_pass pat_search utcnow start_at_end path disk pos inode db).
Proof.
  unfold tail_pass. destruct disk as [[st_ino data]|]; [|done].
  destruct (decide (inode = Some st_ino)), start_at_end; cbn -[read_loop];
    match goal with
    | |- context [read_loop _ _ ?fuel ?path ?f ?db ?out] =>
        destruct (read_loop_returns fuel path f db out) as [[[pos' db'] out'] ->];
          [simpl; pose proof (str_drop_length (f_pos f) data); simpl in *; lia
          |done]
    end.
Qed.
End TailLoop.

(** ** The persisted snippet *)

Lemma str_take_unfold (n : nat) (c : ascii) (s : string) :
  str_take (S n) (String c s) = String c (str_take n s).
Proof. done. Qed.

Lemma str_take_drop (n : nat) (s : string) :
  str_take n s +:+ str_drop n s = s.
Proof.
  revert s. induction n as [|n IH]; intros [|c s]; try done.
  rewrite str_take_unfold. simpl. by rewrite IH.
Qed.

Lemma str_take_length (n : nat) (s : string) :
  String.length (str_take n s) = Nat.min n (String.length s).
Proof.
  revert s. induction n as [|n IH]; intros [|c s]; try done.
  rewrite str_take_unfold. simpl. by rewrite IH.
Qed.

Lemma str_take_all (n : nat) (s : string) :
  (String.length s ≤ n)%nat → str_take n s = s.
Proof.
  revert s. induction n as [|n IH]; intros [|c s]; simpl; try done; [lia|].
  intros Hlen. rewrite str_take_unfold, IH; [done|lia].
Qed.

(** C10: [persist_match] adds one record whose [filename] is the filename
    it was given and whose [line] is the first 4000 characters of the
    line: the whole line when it has at most 4000 characters, and
    otherwise the line without what follows its first 4000 characters. *)
Theorem persist_match_snippet utcnow filename line db :
  ∃ row,
    (persist_match utcnow filename line db).1 = db ++ [row] ∧
    m_filename row = filename ∧
    m_line row = str_take 4000 line ∧
    line = m_line row +:+ str_drop 4000 line ∧
    String.length (m_line row) = Nat.min 4000 (String.length line) ∧
    ((String.length line ≤ 4000)%nat → m_line row = line).
Proof.
  eexists. split; [done|]. cbn [m_filename m_line]. split_and!.
  - done.
  - done.
  - by rewrite str_take_drop.
  - apply str_take_length.
  - apply str_take_all.
Qed.

Lemma persist_match_snippet_witness :
  ∃ row,
    (persist_match "2024-01-01T12:00:00" "/tmp/test.log" "disk ERROR: full"
       []).1 = [row] ∧
    m_filename row = "/tmp/test.log" ∧ m_line row = "disk ERROR: full".
Proof.
  destruct (persist_match_snippet "2024-01-01T12:00:00" "/tmp/test.log"
              "disk ERROR: full" [])
    as (row & Hdb & Hname & _ & _ & _ & Hall).
  exists row. split; [exact Hdb|]. split; [exact Hname|].
  apply Hall. simpl. lia.
Defined.

(** A line of 4003 characters keeps its first 4000. *)
Example persist_match_long_line :
  let line := String.concat "" (replicate 4000 "x") +:+ "END" in
  m_line <$> (persist_match "t" "f" line []).1
  = [String.concat "" (replicate 4000 "x")].
Proof. by vm_compute. Qed.

(** * Further properties of the outbox *)

(** ** Marking, appending and fetching together *)

Lemma mark_sent_ext conn (a b : list string) :
  (∀ eid, eid ∈ a ↔ eid ∈ b) → mark_sent conn a = mark_sent conn b.
Proof.
  intros Hab. rewrite !mark_sent_fmap. apply list_fmap_ext. intros i r _.
  destruct (decide (row_event_id r ∈ a)) as [Ha|Ha];
    [rewrite decide_True|rewrite decide_False]; try done; by rewrite <- Hab.
Qed.

(** X1: marking [a] and then [b] is marking both at once; the order of two
    markings does not matter, and marking the same ids again changes
    nothing. *)
Theorem mark_sent_compose conn (a b : list string) :
  mark_sent (mark_sent conn a) b = mark_sent conn (a ++ b) ∧
  mark_sent (mark_sent conn a) b = mark_sent (mark_sent conn b) a ∧
  mark_sent (mark_sent conn a) a = mark_sent conn a.
Proof.
  assert (Hcomp : ∀ x y, mark_sent (mark_sent conn x) y
                          = mark_sent conn (x ++ y)).
  { intros x y. rewrite !mark_sent_fmap, <- list_fmap_compose.
    apply list_fmap_ext. intros i r _. simpl.
    destruct (decide (row_event_id r ∈ x)) as [Hx|Hx]; simpl.
    - rewrite (decide_True (P := row_event_id r ∈ x ++ y))
        by (apply elem_of_app; by left).
      by case_decide.
    - destruct (decide (row_event_id r ∈ y)) as [Hy|Hy].
      + by rewrite decide_True by (apply elem_of_app; by right).
      + rewrite decide_False; [done|]. rewrite elem_of_app. tauto. }
  split_and!.
  - apply Hcomp.
  - rewrite !Hcomp. apply mark_sent_ext. intros eid.
    rewrite !elem_of_app. tauto.
  - rewrite Hcomp. apply mark_sent_ext. intros eid.
    rewrite elem_of_app. tauto.
Qed.

(** X2: a record that was marked is not fetched again: whatever
    [fetch_unsent] returns after [mark_sent] are tuples of records that
    were unsent before and whose [event_id] was not marked. *)
Theorem mark_sent_not_fetched conn (event_ids : list string) limit rows :
  fetch_unsent (mark_sent conn event_ids) limit = Return rows →
  ∀ t, t ∈ rows →
    (t.1.1.1 ∉ event_ids) ∧ t ∈ select_columns <$> filter unsent conn.
Proof.
  intros Hfetch t Ht. apply fetch_unsent_Return in Hfetch. subst rows.
  apply list_elem_of_fmap in Ht as (r & -> & Hr).
  apply select_unsent_elem in Hr as [Hr Hunsent].
  assert (Hin : r ∈ filter unsent (mark_sent conn event_ids))
    by by apply list_elem_of_filter.
  rewrite filter_unsent_mark_sent, list_elem_of_filter in Hin.
  destruct Hin as [Hnot Hin]. split; [done|]. by apply list_elem_of_fmap_2.
Qed.

Lemma mark_sent_not_fetched_witness :
  fetch_unsent (mark_sent three_rows ["e-1"]) 5
  = Return [("e-3", "t3", "disk ERROR", "ERROR")] ∧
  "e-3" ∉ ["e-1"].
Proof.
  assert (Hfetch : fetch_unsent (mark_sent three_rows ["e-1"]) 5
                   = Return [("e-3", "t3", "disk ERROR", "ERROR")])
    by reflexivity.
  split; [exact Hfetch|].
  apply (mark_sent_not_fetched three_rows ["e-1"] 5 _ Hfetch
           ("e-3", "t3", "disk ERROR", "ERROR")).
  apply list_elem_of_here.
Defined.

Lemma sorted_unsent_snoc conn r :
  unique_ids (conn ++ [r]) → unsent r →
  (∀ r0, r0 ∈ conn → row_id r0 < row_id r) →
  merge_sort id_le (filter unsent (conn ++ [r]))
  = merge_sort id_le (filter unsent conn) ++ [r].
Proof.
  intros Hids Hunsent Hlast.
  apply (StronglySorted_unique_strong id_le).
  - intros x1 x2 Hx1 Hx2 H12 H21. unfold id_le in *.
    apply elem_of_sorted_unsent in Hx1 as [_ Hx1].
    assert (Hx2' : x2 ∈ conn ++ [r]).
    { apply elem_of_app in Hx2 as [Hx2|Hx2]; apply elem_of_app; [left|by right].
      by apply elem_of_sorted_unsent in Hx2 as [_ ?]. }
    apply (NoDup_fmap_elem_inj row_id (conn ++ [r])); [done..|lia].
  - apply sorted_unsent_sorted.
  - apply StronglySorted_app_2.
    + intros x1 x2 [_ Hx1]%elem_of_sorted_unsent ->%list_elem_of_singleton.
      unfold id_le. specialize (Hlast x1 Hx1). lia.
    + apply sorted_unsent_sorted.
    + repeat constructor.
  - rewrite !sorted_unsent_Permutation, filter_app.
    by rewrite (filter_cons_True unsent r []) by done.
Qed.

(** X3: an event with a new [event_id] that [persist_log] has appended is
    the last tuple of an unlimited [fetch_unsent], after the tuples
    fetched before; its record carries an id above every id of the
    table. *)
Theorem persist_log_then_fetch conn e rows :
  unique_ids conn → entry_event_id e ∉ row_event_id <$> conn →
  fetch_unsent conn (-1) = Return rows →
  ∃ conn' out,
    persist_log conn e = Return (conn', out) ∧
    fetch_unsent conn' (-1)
    = Return (rows ++ [(entry_event_id e, entry_timestamp e,
                        entry_message e, entry_severity e)]) ∧
    ∃ r, last conn' = Some r ∧ row_event_id r = entry_event_id e ∧
         ∀ r0, r0 ∈ conn → row_id r0 < row_id r.
Proof.
  intros Hids Hfresh Hfetch. apply fetch_unsent_Return in Hfetch. subst rows.
  eexists _, _. split; [by apply persist_log_fresh|].
  set (r := mk_row (next_rowid conn) (entry_event_id e) (entry_timestamp e)
              (entry_message e) (entry_severity e) 0).
  split.
  - unfold fetch_unsent. rewrite decide_True by (unfold fits_sqlite_integer; lia).
    f_equal. unfold select_unsent, sql_limit. rewrite !decide_True by lia.
    rewrite sorted_unsent_snoc, fmap_app; [done| |done|].
    + apply unique_ids_snoc; [done|apply next_rowid_fresh].
    + intros r0 Hr0. by apply next_rowid_above.
  - exists r. split; [apply last_snoc|]. split; [done|].
    intros r0 Hr0. by apply next_rowid_above.
Qed.

Lemma persist_log_then_fetch_witness :
  ∃ conn' out,
    persist_log three_rows (mk_entry "e-4" "t4" "warn: slow" "WARN")
    = Return (conn', out) ∧
    fetch_unsent conn' (-1)
    = Return [("e-1", "t1", "boot", "INFO");
              ("e-3", "t3", "disk ERROR", "ERROR");
              ("e-4", "t4", "warn: slow", "WARN")].
Proof.
  assert (Hids : unique_ids three_rows).
  { unfold unique_ids. apply (bool_decide_unpack _). by vm_compute. }
  destruct (persist_log_then_fetch three_rows
              (mk_entry "e-4" "t4" "warn: slow" "WARN")
              [("e-1", "t1", "boot", "INFO");
               ("e-3", "t3", "disk ERROR", "ERROR")] Hids)
    as (conn' & out & Hpersist & Hfetch & _).
  - simpl. intros Hin.
    repeat (apply elem_of_cons in Hin as [Hin|Hin]; [discriminate|]).
    by apply elem_of_nil in Hin.
  - reflexivity.
  - by exists conn', out.
Defined.

(** ** Flushes that send nothing, and flushes that fail *)

Lemma build_docs_not_nil now_iso rows : rows ≠ [] → build_docs now_iso rows ≠ [].
Proof.
  intros Hrows Hnil. apply Hrows, nil_length_inv.
  apply (f_equal length) in Hnil. unfold build_docs in Hnil.
  by rewrite length_imap in Hnil.
Qed.

Section FlushEdges.
Context {C : Type} `{Collection C}.

(** X4: when no record is unsent, or when [BATCH_SIZE] is 0, a flush
    returns at once: nothing is sent to the collection, nothing is printed
    and the table is as before.  With [BATCH_SIZE = 0] this holds whatever
    the table holds, so nothing is ever delivered. *)
Theorem flush_outbox_nothing_to_send b now_iso conn (coll : C) :
  fits_sqlite_integer b → filter unsent conn = [] ∨ b = 0 →
  flush_outbox b now_iso conn coll = mk_flushed conn coll [] (Return ()).
Proof.
  intros Hfits Hnone. unfold flush_outbox, fetch_unsent.
  assert (Hsel : select_unsent conn b = []).
  { unfold select_unsent, sql_limit. destruct Hnone as [->| ->]; [|done].
    change (merge_sort id_le []) with (@nil outbox_row).
    case_decide; [done|apply take_nil]. }
  by rewrite decide_True, Hsel, decide_True.
Qed.

(** X5: a batch whose bulk insert raises anything but [BulkWriteError], or
    whose reconciliation query raises, leaves the table as it was: the
    flush prints the error and raises it to its caller. *)
Theorem flush_outbox_send_error b now_iso conn (coll coll' : C) rows e :
  fetch_unsent conn b = Return rows → rows ≠ [] →
  insert_many coll (build_docs now_iso rows) = (coll', Some e) →
  (e ≠ BulkWriteError →
   flush_outbox b now_iso conn coll
   = mk_flushed conn coll' [SendErrorLine e] (Raise e)) ∧
  (∀ e', e = BulkWriteError →
     find_event_ids coll' (doc_event_id <$> build_docs now_iso rows)
     = Raise e' →
     flush_outbox b now_iso conn coll
     = mk_flushed conn coll' [SendErrorLine e'] (Raise e')).
Proof.
  intros Hfetch Hrows Hinsert.
  pose proof (build_docs_not_nil now_iso rows Hrows) as Hdocs.
  unfold flush_outbox, send_batch_to_mongo.
  rewrite Hfetch, !decide_False, Hinsert by done. split.
  - intros Hne. by destruct e.
  - intros e' -> Hfind. by rewrite Hfind.
Qed.
End FlushEdges.

Lemma flush_outbox_nothing_to_send_witness :
  flush_outbox 0 noon three_rows empty_store
  = mk_flushed three_rows empty_store [] (Return ()).
Proof.
  apply flush_outbox_nothing_to_send.
  - unfold fits_sqlite_integer. lia.
  - by right.
Defined.

Lemma flush_outbox_send_error_witness :
  flush_outbox 5 noon three_rows unreachable_store
  = mk_flushed three_rows unreachable_store
      [SendErrorLine server_selection_timeout]
      (Raise server_selection_timeout).
Proof.
  destruct (flush_outbox_send_error 5 noon three_rows unreachable_store
              unreachable_store
              [("e-1", "t1", "boot", "INFO");
               ("e-3", "t3", "disk ERROR", "ERROR")]
              server_selection_timeout) as [Hraise _];
    [reflexivity|discriminate|reflexivity|].
  apply Hraise. discriminate.
Defined.

(** ** Flushing into the collection held in memory *)

Lemma insert_many_online (coll : mem_coll) docs :
  mc_online coll = true →
  insert_many coll docs
  = (mk_mem_coll (insert_unordered (mc_rejects coll) (mc_docs coll) docs).1
       true (mc_rejects coll),
     if (insert_unordered (mc_rejects coll) (mc_docs coll) docs).2
     then Some BulkWriteError else None).
Proof.
  intros Honline. simpl. rewrite Honline.
  by destruct (insert_unordered _ _ _).
Qed.

Lemma insert_many_offline (coll : mem_coll) docs :
  mc_online coll = false →
  insert_many coll docs = (coll, Some server_selection_timeout).
Proof. intros Hoffline. simpl. by rewrite Hoffline. Qed.

Lemma find_event_ids_online (coll : mem_coll) event_ids :
  mc_online coll = true →
  find_event_ids coll event_ids
  = Return (filter (λ eid, eid ∈ event_ids) (doc_event_id <$> mc_docs coll)).
Proof. intros Honline. simpl. by rewrite Honline. Qed.

(** A bulk insert removes nothing from the collection. *)
Lemma insert_unordered_keeps rejects stored docs eid :
  eid ∈ doc_event_id <$> stored →
  eid ∈ doc_event_id <$> (insert_unordered rejects stored docs).1.
Proof.
  revert stored. induction docs as [|d docs IH]; intros stored Hin; [done|].
  simpl. destruct (rejects d || bool_decide _); simpl; [by apply IH|].
  apply IH. rewrite fmap_app, elem_of_app. by left.
Qed.

(** When no document was rejected, all of them are stored. *)
Lemma insert_unordered_accepted rejects stored docs d :
  (insert_unordered rejects stored docs).2 = false → d ∈ docs →
  doc_event_id d ∈ doc_event_id <$> (insert_unordered rejects stored docs).1.
Proof.
  revert stored. induction docs as [|d0 docs IH]; intros stored Hnone Hd.
  { by apply elem_of_nil in Hd. }
  simpl in *. destruct (rejects d0 || bool_decide _); [done|].
  apply elem_of_cons in Hd as [->|Hd]; [|by apply IH].
  apply insert_unordered_keeps. rewrite fmap_app, elem_of_app. right.
  apply list_elem_of_here.
Qed.

(** When every document is already stored, the bulk insert stores nothing
    and rejects the batch. *)
Lemma insert_unordered_present rejects stored docs :
  (∀ d, d ∈ docs → doc_event_id d ∈ doc_event_id <$> stored) →
  insert_unordered rejects stored docs
  = (stored, bool_decide (docs ≠ [])).
Proof.
  induction docs as [|d docs IH]; intros Hdocs; [done|]. simpl.
  rewrite (bool_decide_eq_true_2 (doc_event_id d ∈ _)) by (apply Hdocs; left).
  rewrite orb_true_r, IH by (intros d' Hd'; apply Hdocs; by right).
  done.
Qed.

(** The ids that [send_batch_to_mongo] reports as succeeded are stored in
    the collection it leaves. *)
Lemma send_batch_to_mongo_stored (coll coll' : mem_coll) docs succeeded
    failed eid :
  send_batch_to_mongo coll docs = (coll', Return (succeeded, failed)) →
  eid ∈ succeeded → eid ∈ doc_event_id <$> mc_docs coll'.
Proof.
  unfold send_batch_to_mongo. case_decide as Hdocs.
  { intros [= <- <- <-]. by intros ?%elem_of_nil. }
  destruct (mc_online coll) eqn:Honline.
  - rewrite insert_many_online by done.
    destruct (insert_unordered _ _ _) as [stored rejected] eqn:Hins.
    cbn [fst snd]. destruct rejected.
    + rewrite find_event_ids_online by done. cbn [mc_docs].
      intros [= <- <- <-]. cbn [mc_docs].
      rewrite list_elem_of_filter, elem_of_list_to_set, list_elem_of_filter.
      tauto.
    + intros [= <- <- <-] (d & -> & Hd)%list_elem_of_fmap. simpl.
      pose proof (insert_unordered_accepted (mc_rejects coll) (mc_docs coll)
                    docs d) as Hstored.
      rewrite Hins in Hstored. by apply Hstored.
  - rewrite insert_many_offline by done. by intros [=].
Qed.

(** X6: a flush marks a record as sent only when a document with its
    [event_id] is stored in the collection after the flush. *)
Theorem flush_outbox_marks_only_stored b now_iso conn (coll : mem_coll) i r r' :
  conn !! i = Some r → unsent r →
  fl_conn (flush_outbox b now_iso conn coll) !! i = Some r' → ¬ unsent r' →
  row_event_id r
  ∈ doc_event_id <$> mc_docs (fl_coll (flush_outbox b now_iso conn coll)).
Proof.
  intros Hr Hunsent. unfold flush_outbox.
  destruct (fetch_unsent conn b) as [rows|e]; simpl; [|congruence].
  case_decide; simpl; [congruence|].
  destruct (send_batch_to_mongo coll _) as [coll' [[succeeded failed]|e]]
    eqn:Hsend; simpl; [|congruence].
  assert (Hconn : (if decide (succeeded = []) then conn
                   else mark_sent conn succeeded) = mark_sent conn succeeded).
  { case_decide as Hnil; [|done]. by rewrite Hnil. }
  rewrite Hconn, mark_sent_lookup, Hr. simpl. intros [= <-] Hsent.
  case_decide as Hin; [|done]. by eapply send_batch_to_mongo_stored.
Qed.

Lemma flush_outbox_marks_only_stored_witness :
  "e-1" ∈ doc_event_id
          <$> mc_docs (fl_coll (flush_outbox 5 noon three_rows
                                  (mk_mem_coll [] true refuse_errors))).
Proof.
  apply (flush_outbox_marks_only_stored 5 noon three_rows
           (mk_mem_coll [] true refuse_errors) 2%nat
           (mk_row 1 "e-1" "t1" "boot" "INFO" 0)
           (mk_row 1 "e-1" "t1" "boot" "INFO" 1)); try reflexivity.
  unfold unsent. simpl. lia.
Defined.

(** X7: when the documents of the batch are already in the collection (a
    batch that was sent but not yet marked), the flush gets a
    [BulkWriteError], finds every [event_id] of the batch in the
    collection, marks the whole batch as sent and returns; the collection
    keeps the documents it had and gets no other one. *)
Theorem flush_outbox_replay b now_iso conn (coll : mem_coll) :
  fits_sqlite_integer b → mc_online coll = true →
  select_unsent conn b ≠ [] →
  (∀ r, r ∈ select_unsent conn b →
        row_event_id r ∈ doc_event_id <$> mc_docs coll) →
  let fl := flush_outbox b now_iso conn coll in
  fl_result fl = Return () ∧
  fl_conn fl = mark_sent conn (row_event_id <$> select_unsent conn b) ∧
  mc_docs (fl_coll fl) = mc_docs coll ∧
  head (fl_console fl) = Some (SentBatchLine (length (select_unsent conn b))).
Proof.
  intros Hfits Honline Hbatch Hstored.
  set (batch := select_unsent conn b) in *.
  set (docs := build_docs now_iso (select_columns <$> batch)).
  assert (Hids : doc_event_id <$> docs = row_event_id <$> batch).
  { unfold docs. by rewrite build_docs_event_ids, select_columns_event_ids. }
  assert (Hdocs : docs ≠ []).
  { apply build_docs_not_nil. by intros ?%fmap_nil_inv. }
  assert (Hpresent : ∀ eid, eid ∈ doc_event_id <$> docs →
                            eid ∈ doc_event_id <$> mc_docs coll).
  { intros eid. rewrite Hids. intros (r & -> & Hr)%list_elem_of_fmap.
    by apply Hstored. }
  assert (Hsend : send_batch_to_mongo coll docs
            = (mk_mem_coll (mc_docs coll) true (mc_rejects coll),
               Return (row_event_id <$> batch, []))).
  { unfold send_batch_to_mongo. rewrite decide_False by done.
    rewrite insert_many_online, insert_unordered_present by
      (try done; intros d Hd; apply Hpresent; by apply list_elem_of_fmap_2).
    rewrite bool_decide_eq_true_2 by done. cbn [fst snd].
    rewrite find_event_ids_online by done. cbn [mc_docs]. rewrite Hids.
    rewrite filter_all, filter_none; [done|..];
      intros eid Heid; rewrite elem_of_list_to_set, list_elem_of_filter.
    - intros Hnot. apply Hnot. split; [done|].
      apply Hpresent. by rewrite Hids.
    - split; [done|]. apply Hpresent. by rewrite Hids. }
  intros fl. unfold fl, flush_outbox, fetch_unsent.
  rewrite decide_True by done. fold batch.
  rewrite decide_False by by intros ?%fmap_nil_inv.
  fold docs. rewrite Hsend.
  rewrite !decide_False by by intros ?%fmap_nil_inv.
  simpl. by rewrite length_fmap.
Qed.

Lemma flush_outbox_replay_witness :
  let coll := mk_mem_coll [mk_doc "e-1" "t1" "boot" "INFO" "sent before";
                           mk_doc "e-3" "t3" "disk ERROR" "ERROR" "sent before"]
                true accept_all in
  let fl := flush_outbox 5 noon three_rows coll in
  filter unsent (fl_conn fl) = [] ∧ mc_docs (fl_coll fl) = mc_docs coll.
Proof.
  intros coll fl.
  destruct (flush_outbox_replay 5 noon three_rows coll)
    as (_ & Hconn & Hdocs & _).
  - unfold fits_sqlite_integer. lia.
  - reflexivity.
  - discriminate.
  - intros r Hr.
    repeat (apply elem_of_cons in Hr as [->|Hr];
            [apply (bool_decide_unpack _); by vm_compute|]).
    by apply elem_of_nil in Hr.
  - fold fl in Hconn, Hdocs. split; [|exact Hdocs]. by rewrite Hconn.
Defined.

(** ** The retry loop *)

Lemma time_sleep_Return interval :
  0 ≤ interval ≤ 9223372036 → time_sleep interval = Return interval.
Proof.
  intros Hrange. unfold time_sleep. by rewrite !decide_False by lia.
Qed.

Lemma select_unsent_none conn b :
  filter unsent conn = [] → select_unsent conn b = [].
Proof.
  intros Hnone. unfold select_unsent, sql_limit. rewrite Hnone.
  change (merge_sort id_le []) with (@nil outbox_row).
  case_decide; [done|apply take_nil].
Qed.

Section RetryTurn.
Context {C : Type} `{Collection C}.

(** A flush that fetches no row does nothing. *)
Lemma flush_outbox_no_rows b now_iso conn (coll : C) :
  fits_sqlite_integer b → select_unsent conn b = [] →
  flush_outbox b now_iso conn coll = mk_flushed conn coll [] (Return ()).
Proof.
  intros Hfits Hsel. unfold flush_outbox, fetch_unsent.
  by rewrite decide_True, Hsel, decide_True.
Qed.

(** A flush that raises has not changed the table. *)
Lemma flush_outbox_raise_conn b now_iso conn (coll : C) e :
  fl_result (flush_outbox b now_iso conn coll) = Raise e →
  fl_conn (flush_outbox b now_iso conn coll) = conn.
Proof.
  unfold flush_outbox. destruct (fetch_unsent conn b) as [rows|e0]; [|done].
  case_decide; [done|].
  by destruct (send_batch_to_mongo coll _) as [coll' [[succeeded failed]|e0]].
Qed.

Lemma retry_turn_returned b now_iso interval (w : retrying C) :
  0 ≤ interval ≤ 9223372036 →
  fl_result (flush_outbox b now_iso (rt_conn w) (rt_coll w)) = Return () →
  let fl := flush_outbox b now_iso (rt_conn w) (rt_coll w) in
  retry_turn b now_iso interval w
  = mk_retrying (fl_conn fl) (fl_coll fl)
      (rt_console w ++ [RetryingLine] ++ (FlushLine <$> fl_console fl))
      (rt_slept w + interval).
Proof.
  intros Hrange Hres. unfold retry_turn.
  by rewrite time_sleep_Return, Hres by done.
Qed.

(** X9: a turn of the retry loop whose flush raises does not end the loop
    and does not change the table: the error is printed last and the turn
    has slept the interval and 5 seconds more. *)
Theorem retry_turn_flush_raises b now_iso interval (w : retrying C) e :
  0 ≤ interval ≤ 9223372036 →
  fl_result (flush_outbox b now_iso (rt_conn w) (rt_coll w)) = Raise e →
  let w' := retry_turn b now_iso interval w in
  rt_conn w' = rt_conn w ∧
  rt_slept w' = rt_slept w + interval + 5 ∧
  last (rt_console w') = Some (RetryErrorLine e).
Proof.
  intros Hrange Hres w'. unfold w', retry_turn.
  rewrite time_sleep_Return, Hres by done. simpl. split_and!.
  - by eapply flush_outbox_raise_conn.
  - done.
  - apply last_snoc.
Qed.

(** X10: with a negative interval [time.sleep] raises before anything is
    flushed: however many turns the loop makes, the table and the
    collection stay as they are, and the thread sleeps 5 seconds a
    turn. *)
Theorem retry_loop_negative_interval b now_iso interval turns k
    (w : retrying C) :
  interval < 0 →
  let w' := retry_loop b now_iso interval turns k w in
  rt_conn w' = rt_conn w ∧ rt_coll w' = rt_coll w ∧
  rt_slept w' = rt_slept w + 5 * Z.of_nat turns.
Proof.
  intros Hneg. revert k w. induction turns as [|turns IH]; intros k w.
  { simpl. split_and!; [done|done|lia]. }
  cbn [retry_loop].
  destruct (IH (S k) (retry_turn b (now_iso k) interval w))
    as (Hconn & Hcoll & Hslept).
  cbv zeta. rewrite Hconn, Hcoll, Hslept.
  unfold retry_turn, time_sleep. rewrite decide_True by done. simpl.
  split_and!; [done|done|lia].
Qed.
End RetryTurn.

Lemma retry_turn_flush_raises_witness :
  let w := mk_retrying three_rows unreachable_store [] 0 in
  let w' := retry_turn 5 noon 30 w in
  rt_conn w' = three_rows ∧ rt_slept w' = 35 ∧
  last (rt_console w') = Some (RetryErrorLine server_selection_timeout).
Proof.
  intros w w'.
  apply (retry_turn_flush_raises 5 noon 30 w server_selection_timeout);
    [lia|reflexivity].
Defined.

Lemma retry_loop_negative_interval_witness :
  let w := mk_retrying three_rows empty_store [] 0 in
  let w' := retry_loop 5 (λ _, noon) (-1) 4 0 w in
  rt_conn w' = three_rows ∧ rt_coll w' = empty_store ∧ rt_slept w' = 20.
Proof.
  intros w w'.
  apply (retry_loop_negative_interval 5 (λ _, noon) (-1) 4 0 w). lia.
Defined.

(** X8: when the collection accepts every insert and no record is appended
    meanwhile, [turns] turns of the retry loop deliver up to
    [turns * BATCH_SIZE] unsent records: no record is left unsent, the
    collection has gained exactly the [event_id]s that were unsent, and
    the thread has slept [turns] intervals. *)
Theorem retry_loop_drains b now_iso interval turns k (w : retrying mem_coll) :
  0 ≤ interval ≤ 9223372036 → 0 < b < 2 ^ 63 →
  unique_event_ids (rt_conn w) → accepts_outbox (rt_coll w) (rt_conn w) →
  (length (filter unsent (rt_conn w)) ≤ turns * Z.to_nat b)%nat →
  let w' := retry_loop b now_iso interval turns k w in
  filter unsent (rt_conn w') = [] ∧
  doc_event_id <$> mc_docs (rt_coll w')
    ≡ₚ (doc_event_id <$> mc_docs (rt_coll w))
       ++ (row_event_id <$> filter unsent (rt_conn w)) ∧
  rt_slept w' = rt_slept w + Z.of_nat turns * interval.
Proof.
  intros Hrange Hb. revert k w.
  induction turns as [|turns IH]; intros k w Huniq Hacc Hlen.
  { assert (Hnil : filter unsent (rt_conn w) = [])
      by (apply nil_length_inv; lia).
    simpl. rewrite Hnil, app_nil_r. split_and!; [done|done|lia]. }
  cbn [retry_loop]. cbv zeta.
  set (w1 := retry_turn b (now_iso k) interval w).
  destruct (decide (filter unsent (rt_conn w) = [])) as [Hnil|Hsome].
  - (* nothing to send in this turn *)
    assert (Hw1 : rt_conn w1 = rt_conn w ∧ rt_coll w1 = rt_coll w ∧
                  rt_slept w1 = rt_slept w + interval).
    { assert (Hfl : flush_outbox b (now_iso k) (rt_conn w) (rt_coll w)
                      = mk_flushed (rt_conn w) (rt_coll w) [] (Return ())).
      { apply flush_outbox_no_rows; [unfold fits_sqlite_integer; lia|].
        by apply select_unsent_none. }
      unfold w1. rewrite retry_turn_returned by (by rewrite ?Hfl).
      by rewrite Hfl. }
    destruct Hw1 as (Hconn1 & Hcoll1 & Hslept1).
    destruct (IH (S k) w1) as (Hnone & Hperm & Hslept).
    + by rewrite Hconn1.
    + by rewrite Hconn1, Hcoll1.
    + rewrite Hconn1, Hnil. simpl. lia.
    + split_and!; [done| |lia].
      by rewrite Hperm, Hconn1, Hcoll1.
  - (* a batch is sent and marked *)
    destruct (flush_outbox_drains b (now_iso k) (rt_conn w) (rt_coll w) Hb
                Huniq Hacc Hsome)
      as (Hres & _ & _ & Hcoll & Hids & Hbatch & Hperm1 & Huniq1 & Hacc1).
    assert (Hw1 : w1 = mk_retrying
                    (fl_conn (flush_outbox b (now_iso k) (rt_conn w) (rt_coll w)))
                    (fl_coll (flush_outbox b (now_iso k) (rt_conn w) (rt_coll w)))
                    (rt_console w1) (rt_slept w + interval)).
    { unfold w1. by rewrite retry_turn_returned. }
    pose proof (Permutation_length Hperm1) as Hcount.
    rewrite length_app, !length_fmap in Hcount.
    destruct (IH (S k) w1) as (Hnone & Hperm & Hslept).
    + by rewrite Hw1.
    + by rewrite Hw1.
    + rewrite Hw1. simpl. simpl in Hlen. lia.
    + split_and!; [done| |rewrite Hslept, Hw1; simpl; lia].
      rewrite Hperm, Hw1. simpl. rewrite Hcoll. simpl.
      rewrite fmap_app, Hids, Hperm1. by rewrite <- app_assoc.
Qed.

Lemma retry_loop_drains_witness :
  let w := mk_retrying twelve_rows empty_store [] 0 in
  let w' := retry_loop 5 (λ _, noon) 30 3 0 w in
  filter unsent (rt_conn w') = [] ∧
  doc_event_id <$> mc_docs (rt_coll w') ≡ₚ twelve_event_ids ∧
  rt_slept w' = 90.
Proof.
  intros w w'.
  destruct (retry_loop_drains 5 (λ _, noon) 30 3 0 w)
    as (Hnone & Hperm & Hslept).
  - lia.
  - lia.
  - unfold unique_event_ids. apply (bool_decide_unpack _). by vm_compute.
  - split_and!; [done|done|]. intros r _ _. apply not_elem_of_nil.
  - cbn [rt_conn w].
    assert (length (filter unsent twelve_rows) = 12%nat) as -> by reflexivity.
    simpl. lia.
  - split_and!; [exact Hnone| |exact Hslept].
    unfold w'. rewrite Hperm. reflexivity.
Defined.

(** ** Lines and their messages *)

(** A line is its stripped part followed by newlines only. *)
Lemma rstrip_nl_newlines (s : string) :
  ∃ n, s = rstrip_nl s +:+ newlines n.
Proof.
  induction s as [|c s [n IH]]; [by exists 0%nat|]. simpl.
  destruct (rstrip_nl s) as [|d t] eqn:Hstrip.
  - simpl in IH. case_decide as Hc.
    + subst c. exists (S n). simpl. by rewrite <- IH.
    + exists n. simpl. by rewrite <- IH.
  - exists n. simpl in *. by rewrite <- IH.
Qed.

Lemma rstrip_nl_of_newlines n : rstrip_nl (newlines n) = "".
Proof.
  induction n as [|n IH]; [done|]. simpl. by rewrite IH.
Qed.

(** The stripped part does not end with a newline. *)
Lemma rstrip_nl_not_terminated (s : string) :
  ¬ newline_terminated (rstrip_nl s).
Proof.
  induction s as [|c s IH]; simpl.
  { intros [[|? ?] ?]; done. }
  destruct (rstrip_nl s) as [|d t] eqn:Hstrip.
  - case_decide as Hc.
    + intros [[|? ?] ?]; done.
    + intros [[|c' [|? ?]] Heq]; simpl in Heq; congruence.
  - intros [[|c' body] Heq]; simpl in Heq; [congruence|].
    apply IH. exists body. congruence.
Qed.

(** X11: [parse_log_line] gives no event exactly for the lines made of
    newlines only (the empty line included); the message of an event is
    never empty, never ends with a newline, and the line is the message
    followed by newlines only; the event carries the id and the time it
    was given. *)
Theorem parse_log_line_message uuid4 now line :
  (parse_log_line uuid4 now line = None ↔ ∃ n, line = newlines n) ∧
  (∀ e, parse_log_line uuid4 now line = Some e →
     entry_event_id e = uuid4 ∧ entry_timestamp e = now ∧
     entry_message e ≠ "" ∧ ¬ newline_terminated (entry_message e) ∧
     ∃ n, line = entry_message e +:+ newlines n).
Proof.
  unfold parse_log_line. split.
  - case_decide as Hempty; split; try done.
    + intros _. destruct (rstrip_nl_newlines line) as [n Hn].
      exists n. by rewrite Hempty in Hn.
    + intros [n ->]. by rewrite rstrip_nl_of_newlines in Hempty.
  - intros e. case_decide as Hempty; [done|]. intros [= <-]. simpl.
    split_and!; try done.
    + apply rstrip_nl_not_terminated.
    + apply rstrip_nl_newlines.
Qed.

Lemma parse_log_line_message_witness :
  entry_message (mk_entry "e-1" "t1" "disk ERROR" "ERROR") ≠ "" ∧
  ∃ n, "disk ERROR" +:+ String nl (String nl "")
       = entry_message (mk_entry "e-1" "t1" "disk ERROR" "ERROR")
         +:+ newlines n.
Proof.
  destruct (parse_log_line_message "e-1" "t1"
              ("disk ERROR" +:+ String nl (String nl ""))) as [_ Hsome].
  destruct (Hsome (mk_entry "e-1" "t1" "disk ERROR" "ERROR") eq_refl)
    as (_ & _ & Hne & _ & Hline).
  by split.
Defined.

(** ** What [follow] yields *)

Lemma str_drop_all (s : string) : str_drop (String.length s) s = "".
Proof. induction s as [|c s IH]; [done|apply IH]. Qed.

Lemma str_drop_append (n : nat) (s t : string) :
  (n ≤ String.length s)%nat → str_drop n (s +:+ t) = str_drop n s +:+ t.
Proof.
  revert s. induction n as [|n IH]; intros s Hn; [done|].
  destruct s as [|c s]; simpl in *; [lia|]. apply IH. lia.
Qed.

Lemma str_drop_length_le (n : nat) (s : string) :
  (n ≤ String.length s)%nat →
  (n + String.length (str_drop n s))%nat = String.length s.
Proof.
  revert s. induction n as [|n IH]; intros s Hn; [done|].
  destruct s as [|c s]; simpl in *; [lia|]. rewrite IH; lia.
Qed.

Lemma string_app_assoc_l (s t u : string) : (s +:+ t) +:+ u = s +:+ t +:+ u.
Proof. induction s as [|c s IH]; simpl; [done|by rewrite IH]. Qed.

Lemma string_app_empty_r (s : string) : s +:+ "" = s.
Proof. induction s as [|c s IH]; simpl; [done|by rewrite IH]. Qed.





(** ** A line through [monitor_line] *)

Lemma mark_sent_absent conn (event_ids : list string) :
  (∀ r, r ∈ conn → row_event_id r ∉ event_ids) →
  mark_sent conn event_ids = conn.
Proof.
  intros Habsent. rewrite mark_sent_fmap.
  rewrite <- (list_fmap_id conn) at 2. apply list_fmap_ext.
  intros i r Hr. rewrite decide_False; [done|].
  apply Habsent. by eapply list_elem_of_lookup_2.
Qed.

(** A flush while the collection cannot be reached changes nothing. *)
Lemma flush_outbox_offline b now_iso conn (coll : mem_coll) :
  mc_online coll = false →
  fl_conn (flush_outbox b now_iso conn coll) = conn ∧
  fl_coll (flush_outbox b now_iso conn coll) = coll.
Proof.
  intros Hoffline. unfold flush_outbox.
  destruct (fetch_unsent conn b) as [rows|e]; [|done].
  case_decide as Hrows; [done|].
  unfold send_batch_to_mongo.
  rewrite decide_False by by apply build_docs_not_nil.
  by rewrite insert_many_offline.
Qed.

(** X13: while the collection cannot be reached, [monitor_line] still
    returns normally for every line: the records of the table are kept as
    they are, at most one record is added, and it is unsent; a line that
    is not empty, read under a new [event_id], is added with its stripped
    text as message; the collection is not changed. *)
Theorem monitor_line_unreachable b now_iso uuid4 now line conn
    (coll : mem_coll) :
  mc_online coll = false →
  ∃ added out,
    monitor_line b now_iso uuid4 now line conn coll
    = Return (conn ++ added, coll, out) ∧
    (length added ≤ 1)%nat ∧ Forall unsent added ∧
    (rstrip_nl line ≠ "" → uuid4 ∉ row_event_id <$> conn →
     ∃ severity,
       added = [mk_row (next_rowid conn) uuid4 now (rstrip_nl line)
                  severity 0]).
Proof.
  intros Hoffline. unfold monitor_line, parse_log_line.
  case_decide as Hempty.
  { exists [], []. rewrite app_nil_r. split_and!; [done|simpl; lia|done|done]. }
  set (e := mk_entry uuid4 now (rstrip_nl line) _).
  destruct (decide (entry_event_id e ∈ row_event_id <$> conn)) as [Hin|Hfresh].
  - rewrite persist_log_duplicate by done. cbv zeta.
    destruct (flush_outbox_offline b now_iso conn coll Hoffline) as [-> ->].
    exists []. eexists. rewrite app_nil_r.
    split_and!; [done|simpl; lia|done|done].
  - rewrite persist_log_fresh by done. cbv zeta.
    destruct (flush_outbox_offline b now_iso
                (conn ++ [mk_row (next_rowid conn) (entry_event_id e)
                            (entry_timestamp e) (entry_message e)
                            (entry_severity e) 0]) coll Hoffline) as [-> ->].
    eexists [_]. eexists. split_and!; [done|simpl; lia| |].
    + by apply Forall_singleton.
    + intros _ _. by eexists.
Qed.

Lemma monitor_line_unreachable_witness :
  ∃ added out,
    monitor_line 5 noon "e-4" "t4" ("disk ERROR" +:+ String nl "") three_rows
      unreachable_store
    = Return (three_rows ++ added, unreachable_store, out) ∧
    Forall unsent added.
Proof.
  destruct (monitor_line_unreachable 5 noon "e-4" "t4"
              ("disk ERROR" +:+ String nl "") three_rows unreachable_store
              eq_refl)
    as (added & out & Hline & _ & Hunsent & _).
  by exists added, out.
Defined.

(** X14: when nothing is waiting in the table and the collection accepts
    every insert, a line that is not empty, read under a new [event_id],
    is delivered by the flush that follows its append: the table gets one
    record more, already marked as sent, no record is left unsent, and the
    collection gets the one document of the line. *)
Theorem monitor_line_delivers b now_iso uuid4 now line conn (coll : mem_coll) :
  0 < b < 2 ^ 63 → rstrip_nl line ≠ "" →
  unique_event_ids conn → uuid4 ∉ row_event_id <$> conn →
  filter unsent conn = [] →
  mc_online coll = true → (∀ d, mc_rejects coll d = false) →
  uuid4 ∉ doc_event_id <$> mc_docs coll →
  ∃ severity out,
    monitor_line b now_iso uuid4 now line conn coll
    = Return (conn ++ [mk_row (next_rowid conn) uuid4 now (rstrip_nl line)
                         severity 1],
              mk_mem_coll (mc_docs coll
                           ++ [mk_doc uuid4 now (rstrip_nl line) severity
                                 (now_iso 0%nat)])
                true (mc_rejects coll),
              out) ∧
    filter unsent (conn ++ [mk_row (next_rowid conn) uuid4 now
                              (rstrip_nl line) severity 1]) = [].
Proof.
  intros Hb Hline Huniq Hfresh Hnone Honline Hrej Hremote.
  unfold monitor_line. rewrite parse_log_line_Some by done.
  set (severity := scan_levels levels (upper (rstrip_nl line)) "INFO").
  set (e := mk_entry uuid4 now (rstrip_nl line) severity).
  rewrite (persist_log_fresh conn e) by done. cbn [entry_event_id
    entry_timestamp entry_message entry_severity e].
  set (r := mk_row (next_rowid conn) uuid4 now (rstrip_nl line) severity 0).
  assert (Hunsent1 : filter unsent (conn ++ [r]) = [r]).
  { by rewrite filter_app, Hnone, (filter_cons_True unsent r []). }
  assert (Hbatch : select_unsent (conn ++ [r]) b = [r]).
  { unfold select_unsent, sql_limit. rewrite Hunsent1, decide_False by lia.
    change (merge_sort id_le [r]) with [r].
    destruct (Z.to_nat b) eqn:Hnat; [lia|]. simpl. by rewrite take_nil. }
  destruct (flush_outbox_drains b now_iso (conn ++ [r]) coll Hb)
    as (_ & _ & Hconn & Hcoll & _ & _ & _ & _ & _).
  { by apply unique_event_ids_snoc. }
  { split_and!; [done|done|]. intros r' Hr' Hunsent'.
    assert (Hin : r' ∈ filter unsent (conn ++ [r]))
      by by apply list_elem_of_filter.
    rewrite Hunsent1 in Hin. by apply list_elem_of_singleton in Hin as ->. }
  { by rewrite Hunsent1. }
  rewrite Hbatch in Hconn, Hcoll. rewrite Hconn, Hcoll.
  assert (Hmarked : mark_sent (conn ++ [r]) (row_event_id <$> [r])
                    = conn ++ [set_sent r]).
  { rewrite mark_sent_fmap, fmap_app, <- mark_sent_fmap.
    rewrite mark_sent_absent.
    - simpl. by rewrite decide_True by apply list_elem_of_here.
    - intros r' Hr' Hin. apply list_elem_of_singleton in Hin.
      apply Hfresh. simpl in Hin. rewrite <- Hin.
      by apply list_elem_of_fmap_2. }
  rewrite Hmarked. exists severity. eexists. split; [done|].
  rewrite filter_app, Hnone. simpl.
  by rewrite filter_cons_False by (unfold unsent; simpl; lia).
Qed.

Lemma monitor_line_delivers_witness :
  ∃ severity out,
    monitor_line 5 noon "e-1" "t1" ("disk ERROR" +:+ String nl "") []
      empty_store
    = Return ([mk_row 1 "e-1" "t1" "disk ERROR" severity 1],
              mk_mem_coll [mk_doc "e-1" "t1" "disk ERROR" severity (noon 0)]
                true accept_all,
              out).
Proof.
  destruct (monitor_line_delivers 5 noon "e-1" "t1"
              ("disk ERROR" +:+ String nl "") [] empty_store)
    as (severity & out & Hline & _);
    try done; try apply not_elem_of_nil.
  - apply NoDup_nil_2.
  - by exists severity, out.
Defined.

(** ** Passes of [tail_file] *)

Lemma str_drop_beyond (n : nat) (s : string) :
  (String.length s ≤ n)%nat → str_drop n s = "".
Proof.
  revert s. induction n as [|n IH]; intros [|c s] Hn; simpl in *;
    try done; [lia|apply IH; lia].
Qed.

Lemma split_line_empty (s : string) : (split_line s).1 = "" → s = "".
Proof.
  destruct s as [|c s]; [done|]. simpl. case_decide; [done|].
  by destruct (split_line s).
Qed.

Lemma no_newline_app (s t : string) :
  no_newline s → no_newline t → no_newline (s +:+ t).
Proof.
  induction s as [|c s IH]; simpl; [done|]. intros [Hc Hs] Ht.
  split; [done|by apply IH].
Qed.

Lemma rstrip_nl_app_nl (s : string) :
  rstrip_nl (s +:+ String nl "") = rstrip_nl s.
Proof.
  induction s as [|c s IH]; simpl; [done|by rewrite IH].
Qed.

(** The lines of a text are what [readline] and [rstrip] give, turn after
    turn. *)
Lemma lines_from_split (cur s : string) :
  no_newline cur → cur ≠ "" ∨ s ≠ "" →
  lines_from cur s
  = rstrip_nl (cur +:+ (split_line s).1) :: lines_of (split_line s).2.
Proof.
  revert cur. induction s as [|c s IH]; intros cur Hcur Hne; simpl.
  - destruct Hne as [Hne|]; [|done]. rewrite decide_False by done.
    by rewrite string_app_empty_r, rstrip_nl_no_newline.
  - case_decide as Hc.
    + subst c. simpl. by rewrite rstrip_nl_app_nl, rstrip_nl_no_newline.
    + rewrite IH.
      * destruct (split_line s) as [line rest]. simpl.
        by rewrite string_app_assoc_l.
      * apply no_newline_app; [done|]. by simpl.
      * left. by destruct cur.
Qed.

Lemma lines_of_split (s : string) :
  s ≠ "" → lines_of s = rstrip_nl (split_line s).1 :: lines_of (split_line s).2.
Proof.
  intros Hne. unfold lines_of at 1. rewrite lines_from_split; [done|done|].
  by right.
Qed.

Section TailPass.
Variable pat_search : string → bool.
Variable utcnow : nat → string.

(** With nothing left to read the loop ends at once. *)
Lemma read_loop_nothing fuel path (f : fileobj) db out :
  str_drop (f_pos f) (f_data f) = "" →
  read_loop pat_search utcnow (S fuel) path f db out = Some (f_pos f, db, out).
Proof.
  intros Hnone. cbn [read_loop]. unfold readline. rewrite Hnone. simpl.
  by rewrite Nat.add_0_r.
Qed.

(** The loop only appends records: one for each line of the unread text
    in which the pattern is found, in the order of the lines. *)
Lemma read_loop_lines fuel path (f : fileobj) db out pos' db' out' :
  read_loop pat_search utcnow fuel path f db out = Some (pos', db', out') →
  ∃ added printed,
    db' = db ++ added ∧ out' = out ++ printed ∧
    m_line <$> added = str_take 4000 <$> matching_lines pat_search (unread f) ∧
    Forall (λ row, m_filename row = path ∧ m_sent row = 0) added.
Proof.
  revert f db out. induction fuel as [|fuel IH]; intros f db out; [done|].
  pose proof (readline_unread f) as [Hline Hrest]. cbv zeta in Hline, Hrest.
  cbn [read_loop]. destruct (readline f) as [line f'] eqn:Hread.
  cbn [fst snd] in Hline, Hrest.
  fold (unread f) in Hline, Hrest. fold (unread f') in Hrest.
  case_decide as Hempty.
  { intros [= _ <- <-]. exists [], []. rewrite !app_nil_r.
    rewrite Hempty in Hline. symmetry in Hline.
    apply split_line_empty in Hline. by rewrite Hline. }
  assert (Hlines : lines_of (unread f) = rstrip_nl line :: lines_of (unread f')).
  { rewrite Hline, Hrest. apply lines_of_split.
    intros Hnil. apply Hempty. by rewrite Hline, Hnil. }
  unfold matching_lines in *. rewrite Hlines.
  destruct (pat_search (rstrip_nl line)) eqn:Hpat.
  - unfold persist_match. intros Hloop.
    apply IH in Hloop as (added & printed & -> & -> & Hadded & Hrows).
    eexists (_ :: added), (_ :: _ :: printed).
    split_and!.
    + by rewrite <- app_assoc.
    + by rewrite <- !app_assoc.
    + rewrite filter_cons_True by done. by rewrite !fmap_cons, Hadded.
    + by apply Forall_cons.
  - intros Hloop.
    apply IH in Hloop as (added & printed & -> & -> & Hadded & Hrows).
    exists added, printed. split_and!; [done|done| |done].
    rewrite filter_cons_False; [done|]. by rewrite Hpat.
Qed.

(** The loop stops at the end of the file. *)
Lemma read_loop_position fuel path (f : fileobj) db out pos' db' out' :
  (f_pos f ≤ String.length (f_data f))%nat →
  read_loop pat_search utcnow fuel path f db out = Some (pos', db', out') →
  pos' = String.length (f_data f).
Proof.
  revert f db out. induction fuel as [|fuel IH]; intros f db out Hpos; [done|].
  pose proof (readline_unread f) as [Hline Hrest]. cbv zeta in Hline, Hrest.
  pose proof (split_line_app (str_drop (f_pos f) (f_data f))) as Hsplit.
  pose proof (str_drop_length_le _ _ Hpos) as Hlen.
  assert (Hdata : f_data (readline f).2 = f_data f) by done.
  assert (Hpos1 : f_pos (readline f).2
                  = (f_pos f + String.length (readline f).1)%nat) by done.
  cbn [read_loop]. destruct (readline f) as [line f'] eqn:Hread.
  cbn [fst snd] in *. rewrite <- Hline in Hsplit.
  rewrite Hsplit, string_app_length in Hlen.
  case_decide as Hempty.
  { intros [= <- _ _]. rewrite Hempty in Hline, Hlen, Hpos1.
    symmetry in Hline. apply split_line_empty in Hline.
    rewrite Hline in Hlen. simpl in Hlen, Hpos1. lia. }
  assert (Hpos' : (f_pos f' ≤ String.length (f_data f'))%nat).
  { rewrite Hdata, Hpos1. lia. }
  destruct (pat_search (rstrip_nl line)).
  - destruct (persist_match _ _ _ _) as [db1 printed].
    intros Hloop. apply IH in Hloop; [|done]. by rewrite Hloop, Hdata.
  - intros Hloop. apply IH in Hloop; [|done]. by rewrite Hloop, Hdata.
Qed.

(** A pass over the open file with no text beyond the position kept. *)
Lemma tail_pass_no_text start_at_end path st_ino data pos db :
  (String.length data ≤ pos)%nat →
  tail_pass pat_search utcnow start_at_end path (Some (st_ino, data)) pos
    (Some st_ino) db
  = Some (pos, Some st_ino, db, []).
Proof.
  intros Hlen. unfold tail_pass. rewrite decide_True by done.
  by rewrite read_loop_nothing by by apply str_drop_beyond.
Qed.

(** X15: a pass does nothing when the file is missing, and when the file
    is the one already open and holds no text beyond the position kept:
    this is the case of a file that has not grown, and of a file cut
    shorter in place, for which the position kept stays beyond its end. *)
Theorem tail_pass_nothing_new start_at_end path disk pos inode db :
  disk = None ∨
  (∃ st_ino data, disk = Some (st_ino, data) ∧ inode = Some st_ino ∧
                  (String.length data ≤ pos)%nat) →
  tail_pass pat_search utcnow start_at_end path disk pos inode db
  = Some (pos, inode, db, []).
Proof.
  intros [->|(st_ino & data & -> & -> & Hlen)]; [done|].
  by apply tail_pass_no_text.
Qed.

(** X16: a pass keeps the records of the table and appends one record for
    each line in which the pattern is found, in the order of the lines and
    no other record.  The lines are those of the text of the file from the
    position where the pass starts to read: the position kept when the
    file is the one already open, else the end or the start of the file
    found; a line ends at a newline or at the end of the file.  The record
    carries the path, is unsent and has as line the first 4000 characters
    of the line, without its newline. *)
Theorem tail_pass_persists_matches start_at_end path st_ino data pos inode db
    pos' inode' db' out :
  tail_pass pat_search utcnow start_at_end path (Some (st_ino, data)) pos
    inode db = Some (pos', inode', db', out) →
  inode' = Some st_ino ∧
  ∃ added,
    db' = db ++ added ∧
    m_line <$> added
    = str_take 4000 <$>
        matching_lines pat_search
          (str_drop (if decide (inode = Some st_ino) then pos
                     else if start_at_end then String.length data else 0%nat)
             data) ∧
    Forall (λ row, m_filename row = path ∧ m_sent row = 0) added.
Proof.
  unfold tail_pass.
  destruct (decide (inode = Some st_ino)) as [->|Hne];
    [|destruct start_at_end];
    (destruct (read_loop _ _ _ _ _ _ _) as [[[p d] o]|] eqn:Hloop; [|done]);
    intros [= <- <- <- <-]; (split; [done|]);
    apply read_loop_lines in Hloop as (added & printed & -> & _ & Hadded & Hrows);
    by exists added.
Qed.

(** X17: after a pass over a file whose end is not before the position
    kept, the position is the end of the file; a second pass over the
    same file reads nothing: no record is added and nothing is printed,
    so no line is persisted twice. *)
Theorem tail_pass_twice start_at_end path st_ino data pos inode db pos' inode'
    db' out :
  (inode = Some st_ino → (pos ≤ String.length data)%nat) →
  tail_pass pat_search utcnow start_at_end path (Some (st_ino, data)) pos
    inode db = Some (pos', inode', db', out) →
  pos' = String.length data ∧
  tail_pass pat_search utcnow start_at_end path (Some (st_ino, data)) pos'
    inode' db' = Some (pos', inode', db', []).
Proof.
  intros Hpos Hpass.
  assert (Hend : pos' = String.length data ∧ inode' = Some st_ino).
  { revert Hpass. unfold tail_pass.
    destruct (decide (inode = Some st_ino)) as [->|Hne].
    - destruct (read_loop _ _ _ _ _ _ _) as [[[p d] o]|] eqn:Hloop; [|done].
      intros [= <- <- <- <-]. split; [|done].
      apply read_loop_position in Hloop; [done|]. simpl. by apply Hpos.
    - destruct (read_loop _ _ _ _ _ _ _) as [[[p d] o]|] eqn:Hloop; [|done].
      intros [= <- <- <- <-]. split; [|done].
      apply read_loop_position in Hloop; [by destruct start_at_end|].
      destruct start_at_end; simpl; lia. }
  destruct Hend as [-> ->]. split; [done|].
  apply tail_pass_no_text. lia.
Qed.

(** X18: when the file found is not the one that was open (first pass, or
    rotation), the position kept is dropped.  With [start_at_end] the
    pass goes to the end of the file found: whatever that file already
    holds is skipped and nothing is persisted.  Without it the file found
    is read from its start to its end: the pass opens it at position 0,
    appends one record for each line of the whole file in which the
    pattern is found, and keeps the end of the file as position; the
    position and the inode kept before have no part in the result. *)
Theorem tail_pass_rotation path st_ino data pos inode db :
  inode ≠ Some st_ino →
  tail_pass pat_search utcnow true path (Some (st_ino, data)) pos inode db
  = Some (String.length data, Some st_ino, db,
          [OpenedLine st_ino (String.length data)]) ∧
  (∃ added printed,
     tail_pass pat_search utcnow false path (Some (st_ino, data)) pos inode db
     = Some (String.length data, Some st_ino, db ++ added,
             OpenedLine st_ino 0 :: printed) ∧
     m_line <$> added = str_take 4000 <$> matching_lines pat_search data ∧
     Forall (λ row, m_filename row = path ∧ m_sent row = 0) added) ∧
  ∀ pos2 inode2, inode2 ≠ Some st_ino →
    tail_pass pat_search utcnow false path (Some (st_ino, data)) pos inode db
    = tail_pass pat_search utcnow false path (Some (st_ino, data)) pos2
        inode2 db.
Proof.
  intros Hne. unfold tail_pass. split_and!.
  - rewrite decide_False by done. cbv iota.
    by rewrite (read_loop_nothing _ path (seek_end (mk_file data 0)) db _
                  (str_drop_all data)).
  - rewrite decide_False by done.
    destruct (read_loop_returns pat_search utcnow (S (String.length data)) path
                (mk_file data 0) db [OpenedLine st_ino 0])
      as [[[pos' db'] out'] Hloop]; [simpl; lia|].
    cbn -[read_loop]. rewrite Hloop.
    pose proof Hloop as Hend.
    apply read_loop_position in Hend; [|simpl; lia]. cbn [f_data] in Hend.
    subst pos'.
    apply read_loop_lines in Hloop as (added & printed & -> & -> & Hadded & Hrows).
    by exists added, printed.
  - intros pos2 inode2 Hne2. by rewrite !decide_False by done.
Qed.
End TailPass.

Lemma tail_pass_nothing_new_witness :
  tail_pass error_pattern noon true "/tmp/test.log" (Some (7, "cut")) 22
    (Some 7) []
  = Some (22%nat, Some 7, [], []).
Proof.
  apply tail_pass_nothing_new. right. exists 7, "cut".
  split_and!; [done|done|simpl; lia].
Defined.

Lemma tail_pass_persists_matches_witness :
  ∃ added,
    [mk_match 1 (noon 2 +:+ "Z") "/tmp/test.log" "disk ERROR: full" 0]
    = [] ++ added ∧
    m_line <$> added = ["disk ERROR: full"] ∧
    Forall (λ row, m_filename row = "/tmp/test.log" ∧ m_sent row = 0) added.
Proof.
  apply (tail_pass_persists_matches error_pattern noon false "/tmp/test.log"
           7 two_lines 0 None [] 22 (Some 7)
           [mk_match 1 (noon 2 +:+ "Z") "/tmp/test.log" "disk ERROR: full" 0]
           [OpenedLine 7 0; MatchLine (noon 1 +:+ "Z") "disk ERROR: full";
            PersistedMatchLine (noon 2 +:+ "Z") 1]).
  reflexivity.
Defined.

Lemma tail_pass_twice_witness :
  let db := [mk_match 1 (noon 2 +:+ "Z") "/tmp/test.log" "disk ERROR: full" 0] in
  tail_pass error_pattern noon false "/tmp/test.log" (Some (7, two_lines)) 22
    (Some 7) db
  = Some (22%nat, Some 7, db, []).
Proof.
  intros db.
  apply (tail_pass_twice error_pattern noon false "/tmp/test.log" 7 two_lines
           0 None [] 22 (Some 7) db
           [OpenedLine 7 0; MatchLine (noon 1 +:+ "Z") "disk ERROR: full";
            PersistedMatchLine (noon 2 +:+ "Z") 1]).
  - discriminate.
  - reflexivity.
Defined.

Lemma tail_pass_rotation_witness :
  tail_pass error_pattern noon true "/tmp/test.log" (Some (8, two_lines)) 22
    (Some 7) []
  = Some (22%nat, Some 8, [], [OpenedLine 8 22]) ∧
  ∃ added printed,
    tail_pass error_pattern noon false "/tmp/test.log" (Some (8, two_lines)) 22
      (Some 7) []
    = Some (22%nat, Some 8, [] ++ added, OpenedLine 8 0 :: printed) ∧
    m_line <$> added = ["disk ERROR: full"].
Proof.
  destruct (tail_pass_rotation error_pattern noon "/tmp/test.log" 8 two_lines
              22 (Some 7) [])
    as (Hend & (added & printed & Hstart & Hlines & _) & _); [discriminate|].
  split; [exact Hend|]. by exists added, printed.
Defined.

(** ** A fragment that is not ended by a newline *)

Lemma str_drop_not_empty (n : nat) (s : string) :
  str_drop n s ≠ "" → (n ≤ String.length s)%nat.
Proof.
  intros Hne. destruct (decide (n ≤ String.length s)%nat) as [|Hgt]; [done|].
  destruct Hne. apply str_drop_beyond. lia.
Qed.

Section Fragment.
Context {C : Type} `{Collection C}.
Variable pat_search : string → bool.
Variable utcnow : nat → string.

(** The loop of [tail_file] over the last line of a file, in which the
    pattern is found. *)
Lemma read_loop_last_line fuel path (f : fileobj) db out line :
  unread f = line → line ≠ "" → split_line line = (line, "") →
  pat_search (rstrip_nl line) = true →
  read_loop pat_search utcnow (S (S fuel)) path f db out
  = Some ((f_pos f + String.length line)%nat,
          db ++ [mk_match (1 + foldr Z.max 0 (m_id <$> db))
                   (utcnow (S (length out)) +:+ "Z") path
                   (str_take 4000 (rstrip_nl line)) 0],
          out ++ [MatchLine (utcnow (length out) +:+ "Z") (rstrip_nl line);
                  PersistedMatchLine (utcnow (S (length out)) +:+ "Z")
                    (1 + foldr Z.max 0 (m_id <$> db))]).
Proof.
  intros Hunread Hne Hsplit Hpat.
  change (read_loop pat_search utcnow (S (S fuel)) path f db out)
    with (let '(line, f') := readline f in
          if decide (line = "") then Some (f_pos f', db, out)
          else
            let line := rstrip_nl line in
            if pat_search line then
              let ts := utcnow (length out) +:+ "Z" in
              let out := out ++ [MatchLine ts line] in
              let '(db', printed) :=
                persist_match (utcnow (length out)) path line db in
              read_loop pat_search utcnow (S fuel) path f' db' (out ++ printed)
            else read_loop pat_search utcnow (S fuel) path f' db out).
  unfold readline. fold (unread f). rewrite Hunread, Hsplit. cbn [fst].
  rewrite decide_False by done. cbv zeta. rewrite Hpat. unfold persist_match.
  rewrite read_loop_nothing.
  - cbn [f_pos]. rewrite length_app, <- app_assoc. simpl.
    by rewrite Nat.add_1_r.
  - cbn [f_pos f_data]. rewrite str_drop_add. fold (unread f).
    rewrite Hunread. apply str_drop_all.
Qed.

(** A line that is not empty, read under a new [event_id], is classified
    and appended to the table, whatever the flush that follows does. *)
Lemma monitor_line_persists b now_iso uuid4 now line conn (coll : C) :
  rstrip_nl line ≠ "" → uuid4 ∉ row_event_id <$> conn →
  ∃ conn' coll' out severity sent,
    monitor_line b now_iso uuid4 now line conn coll
    = Return (conn', coll', out) ∧
    parse_log_line uuid4 now line
    = Some (mk_entry uuid4 now (rstrip_nl line) severity) ∧
    length conn' = S (length conn) ∧
    conn' !! length conn
    = Some (mk_row (next_rowid conn) uuid4 now (rstrip_nl line) severity sent).
Proof.
  intros Hline Hfresh. unfold monitor_line.
  rewrite parse_log_line_Some by done.
  set (severity := scan_levels levels (upper (rstrip_nl line)) "INFO").
  set (e := mk_entry uuid4 now (rstrip_nl line) severity).
  rewrite (persist_log_fresh conn e) by done.
  cbn [entry_event_id entry_timestamp entry_message entry_severity e].
  set (r := mk_row (next_rowid conn) uuid4 now (rstrip_nl line) severity 0).
  destruct (flush_outbox_conn b now_iso (conn ++ [r]) coll) as [ids Hconn].
  assert (Hlast : (conn ++ [r]) !! length conn = Some r)
    by apply list_lookup_middle, eq_refl.
  destruct (mark_sent_lookup_cases (conn ++ [r]) ids _ _ Hlast) as [Hr|Hr];
    eexists _, _, _, severity, _;
    (split_and!; [done|done| |]);
    rewrite Hconn; try exact Hr;
    by rewrite mark_sent_length, length_app, Nat.add_1_r.
Qed.

(** C9, as amended: neither reader keeps a line that is not ended by a
    newline for later.  A turn of [follow] yields nothing only when no
    unread text is left, and else yields the unread text up to and
    including its first newline.  When the unread text is a fragment, not
    empty and without a newline, the turn yields the fragment at once;
    [monitor_line] classifies it and appends it to the table as a record
    of its own, under a new [event_id]; text that is written later and
    completes the line is yielded as another line, by a later turn.  A
    pass of [tail_file] does the same: the fragment, when the pattern is
    found in it, is persisted at once, and the rest of the line, when the
    pattern is found in it, is persisted as another record by a later
    pass. *)
Theorem trailing_fragment_emitted (f : fileobj) :
  (unread f = "" → follow_next f = (None, f)) ∧
  ((follow_next f).1 = None → unread f = "") ∧
  (∀ body tail, unread f = body +:+ String nl tail → no_newline body →
     follow_next f
     = (Some (body +:+ String nl ""),
        mk_file (f_data f) (f_pos f + String.length (body +:+ String nl "")))) ∧
  (∀ fragment, unread f = fragment → fragment ≠ "" → no_newline fragment →
     let f1 := mk_file (f_data f) (f_pos f + String.length fragment) in
     ¬ newline_terminated fragment ∧
     follow_next f = (Some fragment, f1) ∧
     (∀ BATCH_SIZE now_iso uuid4 now conn (mongo_coll : C),
        uuid4 ∉ row_event_id <$> conn →
        ∃ conn' coll' out severity sent,
          monitor_line BATCH_SIZE now_iso uuid4 now fragment conn mongo_coll
          = Return (conn', coll', out) ∧
          parse_log_line uuid4 now fragment
          = Some (mk_entry uuid4 now fragment severity) ∧
          length conn' = S (length conn) ∧
          conn' !! length conn
          = Some (mk_row (next_rowid conn) uuid4 now fragment severity sent)) ∧
     (∀ more tail, no_newline more →
        follow_next (appended (more +:+ String nl tail) f1)
        = (Some (more +:+ String nl ""),
           mk_file (f_data f +:+ more +:+ String nl tail)
             (f_pos f1 + String.length (more +:+ String nl "")))) ∧
     (∀ start_at_end path st_ino db, pat_search fragment = true →
        tail_pass pat_search utcnow start_at_end path
          (Some (st_ino, f_data f)) (f_pos f) (Some st_ino) db
        = Some (f_pos f1, Some st_ino,
                db ++ [mk_match (1 + foldr Z.max 0 (m_id <$> db))
                         (utcnow 1%nat +:+ "Z") path
                         (str_take 4000 fragment) 0],
                [MatchLine (utcnow 0%nat +:+ "Z") fragment;
                 PersistedMatchLine (utcnow 1%nat +:+ "Z")
                   (1 + foldr Z.max 0 (m_id <$> db))])) ∧
     (∀ start_at_end path st_ino db more,
        no_newline more → pat_search more = true →
        tail_pass pat_search utcnow start_at_end path
          (Some (st_ino, f_data f +:+ more +:+ String nl "")) (f_pos f1)
          (Some st_ino) db
        = Some ((f_pos f1 + String.length (more +:+ String nl ""))%nat,
                Some st_ino,
                db ++ [mk_match (1 + foldr Z.max 0 (m_id <$> db))
                         (utcnow 1%nat +:+ "Z") path (str_take 4000 more) 0],
                [MatchLine (utcnow 0%nat +:+ "Z") more;
                 PersistedMatchLine (utcnow 1%nat +:+ "Z")
                   (1 + foldr Z.max 0 (m_id <$> db))]))).
Proof.
  split_and!.
  - intros Hnone. rewrite follow_next_unfold. fold (unread f).
    rewrite Hnone. simpl. destruct f as [data pos]. simpl.
    by rewrite Nat.add_0_r.
  - rewrite follow_next_unfold. fold (unread f). cbv zeta.
    case_decide as Hempty; [|done]. intros _. by apply split_line_empty.
  - intros body tail Hunread Hbody. rewrite follow_next_unfold.
    fold (unread f). rewrite Hunread, split_line_newline by done. simpl.
    rewrite decide_False; [done|]. by destruct body.
  - intros fragment Hunread Hne Hnone f1.
    assert (Hpos : (f_pos f ≤ String.length (f_data f))%nat).
    { apply str_drop_not_empty. fold (unread f). by rewrite Hunread. }
    assert (Hlen : (f_pos f + String.length fragment)%nat
                   = String.length (f_data f)).
    { rewrite <- Hunread. by apply str_drop_length_le. }
    assert (Hrest : ∀ text, unread (appended text f1) = text).
    { intros text. unfold unread, appended, f1. cbn [f_pos f_data].
      rewrite str_drop_append by lia. rewrite Hlen.
      by rewrite str_drop_all. }
    split_and!.
    + by apply no_newline_not_terminated.
    + rewrite follow_next_unfold. fold (unread f).
      rewrite Hunread, split_line_no_newline by done. simpl.
      by rewrite decide_False.
    + intros b now_iso uuid4 now conn coll Hfresh.
      pose proof (monitor_line_persists b now_iso uuid4 now fragment conn coll)
        as Hpersists.
      rewrite rstrip_nl_no_newline in Hpersists by done.
      by apply Hpersists.
    + intros more tail Hmore. rewrite follow_next_unfold.
      fold (unread (appended (more +:+ String nl tail) f1)).
      rewrite Hrest, split_line_newline by done. simpl.
      rewrite decide_False; [done|]. by destruct more.
    + intros start_at_end path st_ino db Hpat. unfold tail_pass.
      rewrite decide_True by done.
      destruct (String.length (f_data f)) as [|fuel] eqn:Hdata.
      { destruct fragment; [done|]. simpl in Hlen. lia. }
      rewrite (read_loop_last_line fuel path _ db [] fragment);
        rewrite ?rstrip_nl_no_newline by done; try done.
      by apply split_line_no_newline.
    + intros start_at_end path st_ino db more Hmore Hpat. unfold tail_pass.
      rewrite decide_True by done.
      assert (Hstrip : rstrip_nl (more +:+ String nl "") = more).
      { by rewrite rstrip_nl_app_nl, rstrip_nl_no_newline. }
      destruct (String.length (f_data f +:+ more +:+ String nl ""))
        as [|fuel] eqn:Hdata.
      { rewrite !string_app_length in Hdata. simpl in Hdata. lia. }
      rewrite (read_loop_last_line fuel path _ db [] (more +:+ String nl ""));
        rewrite ?Hstrip; try done.
      * apply (Hrest (more +:+ String nl "")).
      * by destruct more.
      * by apply split_line_newline.
Qed.
End Fragment.

Lemma trailing_fragment_emitted_witness :
  let f := mk_file ("boot" +:+ String nl "disk ERROR: fu") 5 in
  follow_next f = (Some "disk ERROR: fu", mk_file (f_data f) 19) ∧
  (∃ conn' coll' out severity sent,
     monitor_line 5 noon "e-1" "t1" "disk ERROR: fu" [] unreachable_store
     = Return (conn', coll', out) ∧
     conn' !! 0%nat = Some (mk_row 1 "e-1" "t1" "disk ERROR: fu" severity sent)) ∧
  follow_next (appended ("ll" +:+ String nl "") (mk_file (f_data f) 19))
  = (Some ("ll" +:+ String nl ""),
     mk_file (f_data f +:+ "ll" +:+ String nl "") 22) ∧
  tail_pass error_pattern noon true "/tmp/test.log" (Some (7, f_data f)) 5
    (Some 7) []
  = Some (19%nat, Some 7,
          [mk_match 1 (noon 1 +:+ "Z") "/tmp/test.log" "disk ERROR: fu" 0],
          [MatchLine (noon 0 +:+ "Z") "disk ERROR: fu";
           PersistedMatchLine (noon 1 +:+ "Z") 1]).
Proof.
  intros f.
  destruct (trailing_fragment_emitted (C := mem_coll) error_pattern noon f)
    as (_ & _ & _ & Hfragment).
  destruct (Hfragment "disk ERROR: fu")
    as (_ & Hfollow & Hmonitor & Hlater & Hpass & _);
    [done|done|simpl; by repeat split|].
  split_and!.
  - exact Hfollow.
  - destruct (Hmonitor 5 noon "e-1" "t1" [] unreachable_store)
      as (conn' & coll' & out & severity & sent & Hline & _ & _ & Hrow).
    + apply not_elem_of_nil.
    + by exists conn', coll', out, severity, sent.
  - apply (Hlater "ll" ""). simpl. by repeat split.
  - apply (Hpass true "/tmp/test.log" 7 []). reflexivity.
Defined.
